(** * examples/sample_program.c: a multi-threaded counter and array demo

    A shallow embedding of the sample program: the C [int] arithmetic with
    its wrap-around, the reduction [calculate_sum], and the three thread
    bodies ([worker_thread], [mutex_user_thread], [main]) as small-step
    machines over the program's globals, run under an arbitrary scheduler.

    A step of a task is one access to shared state with the local
    computation around it; the steps of the tasks interleave in any order
    (sequential consistency). [pthread_create], [pthread_mutex_lock] and
    [printf] do not fail, as the program assumes; [usleep] is a step with
    no effect, during which any other task may run. *)

From stdpp Require Import base numbers list option strings pretty.

Local Open Scope Z_scope.

(** ** C [int]: 32-bit two's complement *)

Definition INT_MIN : Z := - 2 ^ 31.
Definition INT_MAX : Z := 2 ^ 31 - 1.

(** The value an [int] holds after an arithmetic result [z]. *)
Definition wrap_int (z : Z) : Z := (z + 2 ^ 31) `mod` 2 ^ 32 - 2 ^ 31.

Definition in_int (z : Z) : Prop := INT_MIN <= z <= INT_MAX.

(** [arr[i]]: a read outside the object is undefined, modelled by [None]. *)
Definition load (arr : list Z) (i : Z) : option Z :=
  if 0 <=? i then arr !! Z.to_nat i else None.

(** [arr[i] = v] *)
Definition store (arr : list Z) (i : Z) (v : Z) : option (list Z) :=
  if (0 <=? i) && (i <? Z.of_nat (length arr)) then Some (<[Z.to_nat i := v]> arr)
  else None.

Definition sum_Z (l : list Z) : Z := foldr Z.add 0 l.

(** ** calculate_sum *)

(** One pass through the body of the loop of [calculate_sum]:
    [sum += arr[i]; i++]. *)
Definition sum_iter (arr : list Z) (i sum : Z) : option (Z * Z) :=
  a ← load arr i; Some (wrap_int (i + 1), wrap_int (sum + a)).

(** The loop [for (; i < size; i++) sum += arr[i];] with [n] bounding the
    number of passes. *)
Fixpoint sum_loop (n : nat) (arr : list Z) (size i sum : Z) : option Z :=
  if i <? size then
    match n with
    | O => None
    | S n' =>
        match sum_iter arr i sum with
        | Some (i', sum') => sum_loop n' arr size i' sum'
        | None => None
        end
    end
  else Some sum.

Definition calculate_sum (arr : list Z) (size : Z) : option Z :=
  sum_loop (Z.to_nat size) arr size 0 0.

(** ** The process state *)

(** The tasks a scheduler can pick: the main thread and the threads it
    created, named by their position in the [threads] array of [main]. *)
Inductive task := Main | Thread (n : nat).

Global Instance task_eq_dec : EqDecision task.
Proof. solve_decision. Defined.

Record thread_data_t := { id : Z; iterations : Z }.

(** The null pointer the thread functions return. *)
Definition NULL : Z := 0.

(** The lines the program prints, one constructor per [printf]. *)
Inductive line :=
| Starting
| Worker_line (id counter local_value : Z)
| Acquired_mutex1 (id : Z)
| Acquired_mutex2 (id : Z)
| Initial_sum (sum : Z)
| Final_counter (counter : Z)
| Final_sum (sum : Z)
| Completed.

Definition render (l : line) : string :=
  match l with
  | Starting => "Starting sample program..."
  | Worker_line i c v =>
      "Thread " +:+ pretty i +:+ ": counter = " +:+ pretty c +:+ ", local = " +:+ pretty v
  | Acquired_mutex1 i => "Thread " +:+ pretty i +:+ ": acquired mutex1"
  | Acquired_mutex2 i => "Thread " +:+ pretty i +:+ ": acquired mutex2"
  | Initial_sum x => "Main thread: initial sum = " +:+ pretty x
  | Final_counter c => "Final counter: " +:+ pretty c
  | Final_sum x => "Final sum: " +:+ pretty x
  | Completed => "Program completed successfully"
  end.

(** The globals of the program, and its standard output. A mutex holds the
    task that locked it. *)
Record globals := {
  mutex1 : option task;
  mutex2 : option task;
  counter : Z;
  array : list Z;
  stdout : list line
}.

Definition initial_array : list Z := [1; 2; 3; 4; 5; 6; 7; 8; 9; 10].

Definition initial_globals : globals :=
  {| mutex1 := None; mutex2 := None; counter := 0;
     array := initial_array; stdout := [] |}.

Definition set_mutex1 (m : option task) (g : globals) : globals :=
  {| mutex1 := m; mutex2 := mutex2 g; counter := counter g;
     array := array g; stdout := stdout g |}.
Definition set_mutex2 (m : option task) (g : globals) : globals :=
  {| mutex1 := mutex1 g; mutex2 := m; counter := counter g;
     array := array g; stdout := stdout g |}.
Definition set_counter (c : Z) (g : globals) : globals :=
  {| mutex1 := mutex1 g; mutex2 := mutex2 g; counter := c;
     array := array g; stdout := stdout g |}.
Definition set_array (a : list Z) (g : globals) : globals :=
  {| mutex1 := mutex1 g; mutex2 := mutex2 g; counter := counter g;
     array := a; stdout := stdout g |}.
Definition printf (l : line) (g : globals) : globals :=
  {| mutex1 := mutex1 g; mutex2 := mutex2 g; counter := counter g;
     array := array g; stdout := stdout g ++ [l] |}.

(** [pthread_mutex_lock]: the caller can take this step only when the
    mutex is free; until then it is blocked. *)
Definition pthread_mutex_lock (me : task) (m : option task) : option (option task) :=
  match m with
  | None => Some (Some me)
  | Some _ => None
  end.

(** [pthread_mutex_unlock] by the task that holds the mutex; by any other
    task it is undefined, modelled by [None]. *)
Definition pthread_mutex_unlock (me : task) (m : option task) : option (option task) :=
  match m with
  | Some t => if decide (t = me) then Some None else None
  | None => None
  end.

(** ** worker_thread *)

(** The points of [worker_thread] between two accesses to shared state,
    with the locals live there. [counter++] is a read followed by a
    write. *)
Inductive worker_pc :=
| W_test (i : Z)
| W_lock (i : Z)
| W_incr_load (i : Z)
| W_incr_store (i tmp : Z)
| W_local (i : Z)
| W_usleep_locked (i local_value : Z)
| W_printf (i local_value : Z)
| W_unlock (i : Z)
| W_usleep (i : Z)
| W_return (ret : Z).

Definition worker_thread (me : task) (data : thread_data_t)
    (pc : worker_pc) (g : globals) : option (worker_pc * globals) :=
  match pc with
  | W_test i =>
      if i <? iterations data then Some (W_lock i, g) else Some (W_return NULL, g)
  | W_lock i =>
      m ← pthread_mutex_lock me (mutex1 g); Some (W_incr_load i, set_mutex1 m g)
  | W_incr_load i => Some (W_incr_store i (counter g), g)
  | W_incr_store i tmp => Some (W_local i, set_counter (wrap_int (tmp + 1)) g)
  | W_local i => Some (W_usleep_locked i (counter g), g)
  | W_usleep_locked i v => Some (W_printf i v, g)
  | W_printf i v => Some (W_unlock i, printf (Worker_line (id data) (counter g) v) g)
  | W_unlock i =>
      m ← pthread_mutex_unlock me (mutex1 g); Some (W_usleep i, set_mutex1 m g)
  | W_usleep i => Some (W_test (wrap_int (i + 1)), g)
  | W_return _ => None
  end.

(** ** mutex_user_thread *)

Inductive mutex_user_pc :=
| M_lock1
| M_printf1
| M_usleep
| M_lock2
| M_printf2
| M_test (i : Z)
| M_load (i : Z)
| M_store (i tmp : Z)
| M_unlock2
| M_unlock1
| M_return (ret : Z).

Definition mutex_user_thread (me : task) (data : thread_data_t)
    (pc : mutex_user_pc) (g : globals) : option (mutex_user_pc * globals) :=
  match pc with
  | M_lock1 =>
      m ← pthread_mutex_lock me (mutex1 g); Some (M_printf1, set_mutex1 m g)
  | M_printf1 => Some (M_usleep, printf (Acquired_mutex1 (id data)) g)
  | M_usleep => Some (M_lock2, g)
  | M_lock2 =>
      m ← pthread_mutex_lock me (mutex2 g); Some (M_printf2, set_mutex2 m g)
  | M_printf2 => Some (M_test 0, printf (Acquired_mutex2 (id data)) g)
  | M_test i => if i <? 5 then Some (M_load i, g) else Some (M_unlock2, g)
  | M_load i => tmp ← load (array g) i; Some (M_store i tmp, g)
  | M_store i tmp =>
      a ← store (array g) i (wrap_int (tmp * 2));
      Some (M_test (wrap_int (i + 1)), set_array a g)
  | M_unlock2 =>
      m ← pthread_mutex_unlock me (mutex2 g); Some (M_unlock1, set_mutex2 m g)
  | M_unlock1 =>
      m ← pthread_mutex_unlock me (mutex1 g); Some (M_return NULL, set_mutex1 m g)
  | M_return _ => None
  end.

(** ** Threads *)

(** A created thread: its start routine, the descriptor its argument
    points to, and where it is. [main] writes a descriptor once, before it
    creates the thread, and never again: the pointer is modelled by the
    descriptor. *)
Inductive thread :=
| Worker (data : thread_data_t) (pc : worker_pc)
| Mutex_user (data : thread_data_t) (pc : mutex_user_pc).

Definition thread_step (me : task) (th : thread) (g : globals) : option (thread * globals) :=
  match th with
  | Worker d pc => '(pc', g') ← worker_thread me d pc g; Some (Worker d pc', g')
  | Mutex_user d pc => '(pc', g') ← mutex_user_thread me d pc g; Some (Mutex_user d pc', g')
  end.

(** The value a thread returned, once it has. *)
Definition returned (th : thread) : option Z :=
  match th with
  | Worker _ (W_return r) => Some r
  | Mutex_user _ (M_return r) => Some r
  | _ => None
  end.

(** ** main *)

(** The two constants of [main]: [num_threads], and the iteration count it
    gives every counter worker. *)
Record config := { num_threads : Z; worker_iterations : Z }.

Definition sample : config := {| num_threads := 4; worker_iterations := 5 |}.

Inductive main_pc :=
| Main_start
| Main_create (i : Z)
| Main_create_mutex_user
| Main_sum1 (i sum : Z)
| Main_printf_initial (sum : Z)
| Main_join (i : Z)
| Main_sum2 (i sum : Z)
| Main_printf_counter (sum : Z)
| Main_printf_sum (sum : Z)
| Main_printf_completed
| Main_return (code : Z).

(** The call [calculate_sum(array, 10)] of [main], one pass of its loop at
    a time: [enter] is the point of the call, [leave] the point after it. *)
Definition call_calculate_sum (enter : Z → Z → main_pc) (leave : Z → main_pc)
    (size : Z) (i sum : Z) (g : globals) : option main_pc :=
  if i <? size then '(i', sum') ← sum_iter (array g) i sum; Some (enter i' sum')
  else Some (leave sum).

(** [pthread_create] gives the new thread the next slot of [threads], and
    [pthread_join(threads[i], NULL)] waits for the thread in slot [i]. *)
Definition pthread_create (th : thread) (pool : list thread) : list thread :=
  pool ++ [th].

Definition pthread_join (pool : list thread) (i : Z) : option Z :=
  if 0 <=? i then th ← pool !! Z.to_nat i; returned th else None.

Definition main (cfg : config) (argc : Z) (argv : list string)
    (pc : main_pc) (pool : list thread) (g : globals)
    : option (main_pc * list thread * globals) :=
  match pc with
  | Main_start => Some (Main_create 0, pool, printf Starting g)
  | Main_create i =>
      if i <? num_threads cfg - 1 then
        let data := {| id := wrap_int (i + 1); iterations := worker_iterations cfg |} in
        Some (Main_create (wrap_int (i + 1)),
              pthread_create (Worker data (W_test 0)) pool, g)
      else Some (Main_create_mutex_user, pool, g)
  | Main_create_mutex_user =>
      if 0 <=? num_threads cfg - 1 then
        let data := {| id := num_threads cfg; iterations := 1 |} in
        Some (Main_sum1 0 0, pthread_create (Mutex_user data M_lock1) pool, g)
      else None
  | Main_sum1 i sum =>
      pc' ← call_calculate_sum Main_sum1 Main_printf_initial 10 i sum g;
      Some (pc', pool, g)
  | Main_printf_initial sum => Some (Main_join 0, pool, printf (Initial_sum sum) g)
  | Main_join i =>
      if i <? num_threads cfg then
        _ ← pthread_join pool i; Some (Main_join (wrap_int (i + 1)), pool, g)
      else Some (Main_sum2 0 0, pool, g)
  | Main_sum2 i sum =>
      pc' ← call_calculate_sum Main_sum2 Main_printf_counter 10 i sum g;
      Some (pc', pool, g)
  | Main_printf_counter sum =>
      Some (Main_printf_sum sum, pool, printf (Final_counter (counter g)) g)
  | Main_printf_sum sum =>
      Some (Main_printf_completed, pool, printf (Final_sum sum) g)
  | Main_printf_completed => Some (Main_return 0, pool, printf Completed g)
  | Main_return _ => None
  end.

(** ** The process *)

Record state := {
  argc : Z;
  argv : list string;
  main_at : main_pc;
  pool : list thread;
  mem : globals
}.

(** The process as [main] is entered with its arguments. *)
Definition start (argc : Z) (argv : list string) : state :=
  {| argc := argc; argv := argv; main_at := Main_start; pool := [];
     mem := initial_globals |}.

(** One step of the task the scheduler picked; [None] when that task is
    blocked, has returned, or does not exist. [main] is given its two
    arguments at every step, as its body has them in scope; the threads
    are not, as they are out of their scope. *)
Definition step (cfg : config) (t : task) (s : state) : option state :=
  match t with
  | Main =>
      '(pc', pool', g') ← main cfg (argc s) (argv s) (main_at s) (pool s) (mem s);
      Some {| argc := argc s; argv := argv s; main_at := pc'; pool := pool'; mem := g' |}
  | Thread k =>
      th ← pool s !! k;
      '(th', g') ← thread_step (Thread k) th (mem s);
      Some {| argc := argc s; argv := argv s; main_at := main_at s;
              pool := <[k := th']> (pool s); mem := g' |}
  end.

(** An interleaving is a schedule every step of which can be taken. *)
Fixpoint run (cfg : config) (sched : list task) (s : state) : option state :=
  match sched with
  | [] => Some s
  | t :: sched' => s' ← step cfg t s; run cfg sched' s'
  end.

Definition reachable (cfg : config) (argc : Z) (argv : list string) (s : state) : Prop :=
  ∃ sched, run cfg sched (start argc argv) = Some s.

(** The exit code of the process, once [main] has returned. *)
Definition exit_code (s : state) : option Z :=
  match main_at s with
  | Main_return c => Some c
  | _ => None
  end.

(** What an observer of the process sees: everything but the arguments. *)
Definition observable (s : state) : main_pc * list thread * globals :=
  (main_at s, pool s, mem s).

(** ** What a thread has done, read off its program point *)

(** Whether the thread is between its [pthread_mutex_lock(&mutex1)] and
    the matching unlock. *)
Definition holds1 (th : thread) : bool :=
  match th with
  | Worker _ pc =>
      match pc with
      | W_incr_load _ | W_incr_store _ _ | W_local _ | W_usleep_locked _ _
      | W_printf _ _ | W_unlock _ => true
      | _ => false
      end
  | Mutex_user _ pc =>
      match pc with
      | M_lock1 | M_return _ => false
      | _ => true
      end
  end.

Definition holds2 (th : thread) : bool :=
  match th with
  | Worker _ _ => false
  | Mutex_user _ pc =>
      match pc with
      | M_printf2 | M_test _ | M_load _ | M_store _ _ | M_unlock2 => true
      | _ => false
      end
  end.

(** Whether the thread is suspended in one of its [usleep] calls. *)
Definition in_delay (th : thread) : bool :=
  match th with
  | Worker _ (W_usleep_locked _ _) | Worker _ (W_usleep _) => true
  | Mutex_user _ M_usleep => true
  | _ => false
  end.

(** The number of [counter++] the thread has completed. *)
Definition incs (th : thread) : Z :=
  match th with
  | Worker d pc =>
      match pc with
      | W_test i | W_lock i | W_incr_load i | W_incr_store i _ => i
      | W_local i | W_usleep_locked i _ | W_printf i _ | W_unlock i | W_usleep i => i + 1
      | W_return _ => Z.max 0 (iterations d)
      end
  | Mutex_user _ _ => 0
  end.

(** The number of elements of [array] the thread has doubled. *)
Definition doubled (th : thread) : Z :=
  match th with
  | Worker _ _ => 0
  | Mutex_user _ pc =>
      match pc with
      | M_lock1 | M_printf1 | M_usleep | M_lock2 | M_printf2 => 0
      | M_test i | M_load i | M_store i _ => i
      | M_unlock2 | M_unlock1 | M_return _ => 5
      end
  end.

(** [array] once its first [n] elements are doubled. *)
Definition array_after (n : Z) : list Z :=
  ((λ x, wrap_int (x * 2)) <$> take (Z.to_nat n) initial_array)
    ++ drop (Z.to_nat n) initial_array.

Definition final_array : list Z := array_after 5.

Global Arguments wrap_int : simpl never.
Global Arguments array_after : simpl never.

(** ** Invariants of one thread *)

(** The ranges of the locals of a thread at each of its points. *)
Definition thread_ok (th : thread) : Prop :=
  match th with
  | Worker d pc =>
      in_int (iterations d) ∧
      match pc with
      | W_test i => 0 <= i <= Z.max 0 (iterations d)
      | W_lock i | W_incr_load i | W_incr_store i _ | W_local i
      | W_usleep_locked i _ | W_printf i _ | W_unlock i | W_usleep i =>
          0 <= i < iterations d
      | W_return r => r = NULL
      end
  | Mutex_user d pc =>
      match pc with
      | M_test i => 0 <= i <= 5
      | M_load i | M_store i _ => 0 <= i < 5
      | M_return r => r = NULL
      | _ => True
      end
  end.

(** How one step of task [me] may change its hold on a mutex. *)
Inductive lock_trans (me : task) : bool → bool → option task → option task → Prop :=
| lock_keep h m : lock_trans me h h m m
| lock_acquire : lock_trans me false true None (Some me)
| lock_release : lock_trans me true false (Some me) None.

(** ** Invariants of the process *)

Definition config_ok (cfg : config) : Prop :=
  1 <= num_threads cfg <= INT_MAX ∧ in_int (worker_iterations cfg).

(** The number of threads [main] has created when it is at [pc]. *)
Definition created (cfg : config) (pc : main_pc) : Z :=
  match pc with
  | Main_start => 0
  | Main_create i => i
  | Main_create_mutex_user => num_threads cfg - 1
  | _ => num_threads cfg
  end.

(** The number of threads [main] has joined when it is at [pc]. *)
Definition joined (cfg : config) (pc : main_pc) : Z :=
  match pc with
  | Main_start | Main_create _ | Main_create_mutex_user
  | Main_sum1 _ _ | Main_printf_initial _ => 0
  | Main_join i => i
  | _ => num_threads cfg
  end.

(** The thread in slot [k] of [threads]: a counter worker in every slot but
    the last, the array worker there. *)
Definition slot_ok (cfg : config) (k : nat) (th : thread) : Prop :=
  if Z.of_nat k <? num_threads cfg - 1
  then ∃ pc, th = Worker {| id := Z.of_nat k + 1; iterations := worker_iterations cfg |} pc
  else ∃ pc, th = Mutex_user {| id := num_threads cfg; iterations := 1 |} pc.

Definition main_ok (cfg : config) (pc : main_pc) : Prop :=
  match pc with
  | Main_create i => 0 <= i <= num_threads cfg - 1
  | Main_join i => 0 <= i <= num_threads cfg
  | Main_sum1 i _ | Main_sum2 i _ => 0 <= i <= 10
  | Main_return c => c = 0
  | _ => True
  end.

Definition pool_inv (cfg : config) (s : state) : Prop :=
  main_ok cfg (main_at s) ∧
  Z.of_nat (length (pool s)) = created cfg (main_at s) ∧
  (∀ k th, pool s !! k = Some th → slot_ok cfg k th ∧ thread_ok th).

(** A mutex is held by the one thread that is between its lock and its
    unlock, and by nobody when no thread is. *)
Definition lock_inv (holds : thread → bool) (m : option task) (pool : list thread) : Prop :=
  (∀ k th, pool !! k = Some th → holds th = true → m = Some (Thread k)) ∧
  (∀ t, m = Some t → ∃ k th, t = Thread k ∧ pool !! k = Some th ∧ holds th = true).

(** A thread as [pthread_create] starts it. *)
Definition at_entry (th : thread) : Prop :=
  match th with
  | Worker _ (W_test 0) | Mutex_user _ M_lock1 => True
  | _ => False
  end.

(** *** The two mutexes *)

Definition locks_inv (s : state) : Prop :=
  lock_inv holds1 (mutex1 (mem s)) (pool s) ∧ lock_inv holds2 (mutex2 (mem s)) (pool s).

(** *** The counter *)

(** The value of [counter] a worker read for its [counter++] and has not
    yet written back. *)
Definition pending_counter (th : thread) : option Z :=
  match th with
  | Worker _ (W_incr_store _ tmp) => Some tmp
  | _ => None
  end.

(** [counter] counts the increments of all threads, and a worker in the
    middle of [counter++] has read its current value. *)
Definition counter_inv (s : state) : Prop :=
  counter (mem s) = wrap_int (sum_Z (incs <$> pool s)) ∧
  (∀ k th tmp, pool s !! k = Some th → pending_counter th = Some tmp →
     tmp = counter (mem s)).

(** *** The array *)

(** The element of [array] the array worker read for [array[i] *= 2] and
    has not yet written back. *)
Definition pending_array (th : thread) : option (Z * Z) :=
  match th with
  | Mutex_user _ (M_store i tmp) => Some (i, tmp)
  | _ => None
  end.

(** [array] is the initial array with as many leading elements doubled as
    the array worker has gone through. *)
Definition array_inv (s : state) : Prop :=
  array (mem s) = array_after (sum_Z (doubled <$> pool s)) ∧
  (∀ k th i tmp, pool s !! k = Some th → pending_array th = Some (i, tmp) →
     load initial_array i = Some tmp).

(** *** Joined threads have returned *)

Definition join_inv (cfg : config) (s : state) : Prop :=
  ∀ k th, Z.of_nat k < joined cfg (main_at s) → pool s !! k = Some th →
          is_Some (returned th).

(** *** The sums main computes *)

Definition prefix_sum (l : list Z) (i : Z) : Z := sum_Z (take (Z.to_nat i) l).

Definition sums_inv (s : state) : Prop :=
  match main_at s with
  | Main_sum1 i sum =>
      prefix_sum initial_array i <= sum <= prefix_sum final_array i ∧
      (sum_Z (doubled <$> pool s) = 0 → sum = prefix_sum initial_array i)
  | Main_printf_initial sum =>
      55 <= sum <= 70 ∧ (sum_Z (doubled <$> pool s) = 0 → sum = 55)
  | Main_sum2 i sum => sum = prefix_sum final_array i
  | Main_printf_counter sum | Main_printf_sum sum => sum = 70
  | _ => True
  end.

(** *** What main prints *)

(** The increments of all counter workers together. *)
Definition total (cfg : config) : Z :=
  (num_threads cfg - 1) * Z.max 0 (worker_iterations cfg).

Definition main_line (l : line) : bool :=
  match l with
  | Worker_line _ _ _ | Acquired_mutex1 _ | Acquired_mutex2 _ => false
  | _ => true
  end.

(** The number of lines [main] has printed when it is at [pc]. *)
Definition printed (pc : main_pc) : nat :=
  match pc with
  | Main_start => 0
  | Main_create _ | Main_create_mutex_user | Main_sum1 _ _ | Main_printf_initial _ => 1
  | Main_join _ | Main_sum2 _ _ | Main_printf_counter _ => 2
  | Main_printf_sum _ => 3
  | Main_printf_completed => 4
  | Main_return _ => 5
  end.

(** The lines of [main], in the order it prints them. *)
Definition main_lines (cfg : config) (initial : Z) : list line :=
  [Starting; Initial_sum initial; Final_counter (wrap_int (total cfg));
   Final_sum 70; Completed].

Definition out_inv (cfg : config) (s : state) : Prop :=
  ∃ x, 55 <= x <= 70 ∧
       (sum_Z (doubled <$> pool s) = 0 → x = 55) ∧
       filter (λ l, main_line l = true) (stdout (mem s)) =
         take (printed (main_at s)) (main_lines cfg x).

(** *** The invariant of the process *)

Record inv (cfg : config) (s : state) : Prop := {
  inv_pool : pool_inv cfg s;
  inv_locks : locks_inv s;
  inv_counter : counter_inv s;
  inv_array : array_inv s;
  inv_join : join_inv cfg s;
  inv_sums : sums_inv s;
  inv_out : out_inv cfg s
}.

(** ** Steps left *)

(** The number of steps a thread still takes before it returns. *)
Definition thread_fuel (th : thread) : Z :=
  match th with
  | Worker d pc =>
      match pc with
      | W_test i => 9 * Z.max 0 (iterations d - i) + 1
      | W_lock i => 9 * (iterations d - i)
      | W_incr_load i => 9 * (iterations d - i) - 1
      | W_incr_store i _ => 9 * (iterations d - i) - 2
      | W_local i => 9 * (iterations d - i) - 3
      | W_usleep_locked i _ => 9 * (iterations d - i) - 4
      | W_printf i _ => 9 * (iterations d - i) - 5
      | W_unlock i => 9 * (iterations d - i) - 6
      | W_usleep i => 9 * (iterations d - i) - 7
      | W_return _ => 0
      end
  | Mutex_user _ pc =>
      match pc with
      | M_lock1 => 23
      | M_printf1 => 22
      | M_usleep => 21
      | M_lock2 => 20
      | M_printf2 => 19
      | M_test i => 3 * Z.max 0 (5 - i) + 3
      | M_load i => 3 * (5 - i) + 2
      | M_store i _ => 3 * (5 - i) + 1
      | M_unlock2 => 2
      | M_unlock1 => 1
      | M_return _ => 0
      end
  end.

(** The number of steps [main] still takes, with those of the threads it
    has yet to create. *)
Definition main_fuel (cfg : config) (pc : main_pc) : Z :=
  let n := num_threads cfg in
  match pc with
  | Main_start => (n - 1) * (9 * Z.max 0 (worker_iterations cfg) + 2) + n + 53
  | Main_create i => (n - 1 - i) * (9 * Z.max 0 (worker_iterations cfg) + 2) + n + 52
  | Main_create_mutex_user => n + 51
  | Main_sum1 i _ => (10 - i) + n + 17
  | Main_printf_initial _ => n + 16
  | Main_join i => (n - i) + 15
  | Main_sum2 i _ => (10 - i) + 4
  | Main_printf_counter _ => 3
  | Main_printf_sum _ => 2
  | Main_printf_completed => 1
  | Main_return _ => 0
  end.

Definition fuel (cfg : config) (s : state) : Z :=
  main_fuel cfg (main_at s) + sum_Z (thread_fuel <$> pool s).

(** ** Waiting for a mutex *)

(** The thread is at a [pthread_mutex_lock]. *)
Definition waits1 (th : thread) : bool :=
  match th with
  | Worker _ (W_lock _) | Mutex_user _ M_lock1 => true
  | _ => false
  end.

Definition waits2 (th : thread) : bool :=
  match th with
  | Mutex_user _ M_lock2 => true
  | _ => false
  end.

(** ** Two runs on different arguments *)

(** The same state with other arguments of [main]. *)
Definition with_args (argc : Z) (argv : list string) (s : state) : state :=
  {| argc := argc; argv := argv; main_at := main_at s; pool := pool s; mem := mem s |}.

(** ** Configurations and schedules used below *)

(** The configuration with [C] counter workers of [K] iterations each,
    and the array worker. *)
Definition counter_workers (C : nat) (K : Z) : config :=
  {| num_threads := Z.of_nat C + 1; worker_iterations := K |}.

(** A schedule of the sample program: main up to the first join, the four
    threads one after the other, main to its end. *)
Definition one_by_one : list task :=
  replicate 18 Main ++ replicate 46 (Thread 0) ++ replicate 46 (Thread 1) ++
  replicate 46 (Thread 2) ++ replicate 23 (Thread 3) ++ replicate 19 Main.

(** A schedule on which [main] reads three elements of [array], the array
    worker then runs to its end, and [main] reads the other seven. *)
Definition torn_sum : list task :=
  replicate 9 Main ++ replicate 23 (Thread 3) ++ replicate 9 Main ++
  replicate 46 (Thread 0) ++ replicate 46 (Thread 1) ++ replicate 46 (Thread 2) ++
  replicate 19 Main.

(** A schedule that stops with [main] in its first sum and the array
    worker about to write [array[0]]. *)
Definition sum_during_mutation : list task :=
  replicate 6 Main ++ replicate 7 (Thread 3) ++ replicate 3 Main.

(** A schedule that stops with [main] at its second call of
    [calculate_sum]. *)
Definition up_to_second_sum : list task :=
  replicate 18 Main ++ replicate 46 (Thread 0) ++ replicate 46 (Thread 1) ++
  replicate 46 (Thread 2) ++ replicate 23 (Thread 3) ++ replicate 5 Main.

(** A schedule that stops with the array worker in its [usleep]. *)
Definition array_worker_sleeps : list task :=
  replicate 6 Main ++ replicate 2 (Thread 3).

(** The states the schedules above end in. *)
Definition one_by_one_end : state :=
  Eval vm_compute in default (start 0 []) (run sample one_by_one (start 0 [])).

Definition torn_sum_end : state :=
  Eval vm_compute in default (start 0 []) (run sample torn_sum (start 0 [])).

Definition up_to_second_sum_end : state :=
  Eval vm_compute in default (start 0 []) (run sample up_to_second_sum (start 0 [])).

Definition sum_during_mutation_end : state :=
  Eval vm_compute in default (start 0 []) (run sample sum_during_mutation (start 0 [])).

Definition array_worker_sleeps_end : state :=
  Eval vm_compute in default (start 0 []) (run sample array_worker_sleeps (start 0 [])).

(** ** Further definitions *)

(** The number of steps of every complete run: those of [main], of the
    counter workers and of the array worker. *)
Definition steps_to_exit (cfg : config) : Z :=
  (num_threads cfg - 1) * (9 * Z.max 0 (worker_iterations cfg) + 2)
  + num_threads cfg + 53.

(** A schedule that stops with the first counter worker at its
    [pthread_mutex_lock] while the array worker holds mutex1. *)
Definition worker_blocked : list task :=
  replicate 6 Main ++ [Thread 3; Thread 0].

Definition worker_blocked_end : state :=
  Eval vm_compute in default (start 0 []) (run sample worker_blocked (start 0 [])).

(** The number of lines a thread has printed with the [printf] of
    [worker_thread]. *)
Definition lines_printed (th : thread) : Z :=
  match th with
  | Worker d pc =>
      match pc with
      | W_test i | W_lock i | W_incr_load i | W_incr_store i _ | W_local i
      | W_usleep_locked i _ | W_printf i _ => i
      | W_unlock i | W_usleep i => i + 1
      | W_return _ => Z.max 0 (iterations d)
      end
  | Mutex_user _ _ => 0
  end.

(** The [local_value] of a worker that has read it and not yet printed
    it. *)
Definition pending_local (th : thread) : option Z :=
  match th with
  | Worker _ (W_usleep_locked _ v) | Worker _ (W_printf _ v) => Some v
  | _ => None
  end.

(** The [counter] and [local] values of the worker lines of an output, in
    the order they were printed. *)
Definition worker_pairs (out : list line) : list (Z * Z) :=
  omap (λ l, match l with
             | Worker_line _ c v => Some (c, v)
             | _ => None
             end) out.

(** The worker lines printed so far count 1, 2, 3, ... with [local] equal
    to [counter], and a worker about to print has read the current value
    of [counter]. *)
Definition lines_inv (s : state) : Prop :=
  worker_pairs (stdout (mem s)) =
    (λ c, (c, c)) <$> seqZ 1 (sum_Z (lines_printed <$> pool s)) ∧
  (∀ k th v, pool s !! k = Some th → pending_local th = Some v →
     v = counter (mem s)).

(** [n] steps of one thread with no other task running in between. *)
Fixpoint thread_run (n : nat) (me : task) (th : thread) (g : globals)
    : option (thread * globals) :=
  match n with
  | O => Some (th, g)
  | S n' =>
      match thread_step me th g with
      | Some (th', g') => thread_run n' me th' g'
      | None => None
      end
  end.

(** The lines of [m] iterations of a worker that finds [counter] at [c]
    and is not interrupted. *)
Fixpoint worker_output (id : Z) (c : Z) (m : nat) : list line :=
  match m with
  | O => []
  | S m' =>
      Worker_line id (wrap_int (c + 1)) (wrap_int (c + 1))
        :: worker_output id (wrap_int (c + 1)) m'
  end.

(** Whether a line is one of the two of [mutex_user_thread]. *)
Definition acquired_line (l : line) : bool :=
  match l with
  | Acquired_mutex1 _ | Acquired_mutex2 _ => true
  | _ => false
  end.

(** The number of lines the thread has printed with the [printf]s of
    [mutex_user_thread]. *)
Definition acquired_printed (th : thread) : Z :=
  match th with
  | Worker _ _ => 0
  | Mutex_user _ pc =>
      match pc with
      | M_lock1 | M_printf1 => 0
      | M_usleep | M_lock2 | M_printf2 => 1
      | _ => 2
      end
  end.

(** The lines of the array worker are its two, in order. *)
Definition acquired_inv (cfg : config) (s : state) : Prop :=
  filter (λ l, acquired_line l = true) (stdout (mem s)) =
    take (Z.to_nat (sum_Z (acquired_printed <$> pool s)))
      [Acquired_mutex1 (num_threads cfg); Acquired_mutex2 (num_threads cfg)].

(** A line of a thread names the thread: a worker line has the id of a
    counter worker, an acquisition line the id of the array worker. *)
Definition line_id_ok (cfg : config) (l : line) : Prop :=
  match l with
  | Worker_line i _ _ => 1 <= i <= num_threads cfg - 1
  | Acquired_mutex1 i | Acquired_mutex2 i => i = num_threads cfg
  | _ => True
  end.

(** The output begins with the start line and, once [main] prints its
    final block, ends with that block. *)
Definition output_frame_inv (cfg : config) (s : state) : Prop :=
  match main_at s with
  | Main_start => stdout (mem s) = []
  | Main_printf_sum _ =>
      ∃ mid, stdout (mem s) =
               Starting :: mid ++ [Final_counter (wrap_int (total cfg))]
  | Main_printf_completed =>
      ∃ mid, stdout (mem s) =
               Starting :: mid ++ [Final_counter (wrap_int (total cfg)); Final_sum 70]
  | Main_return _ =>
      ∃ mid, stdout (mem s) =
               Starting :: mid ++ [Final_counter (wrap_int (total cfg)); Final_sum 70;
                                   Completed]
  | _ => ∃ mid, stdout (mem s) = Starting :: mid
  end.

(** * Proofs *)

(** ** The definitions on examples *)

Example render_final_counter : render (Final_counter 15) = "Final counter: 15".
Proof. reflexivity. Qed.

Example render_worker_line :
  render (Worker_line 2 7 7) = "Thread 2: counter = 7, local = 7".
Proof. reflexivity. Qed.

Example one_by_one_complete :
  run sample one_by_one (start 0 []) = Some one_by_one_end ∧
  exit_code one_by_one_end = Some 0 ∧
  counter (mem one_by_one_end) = 15 ∧
  array (mem one_by_one_end) = [2; 4; 6; 8; 10; 6; 7; 8; 9; 10].
Proof. split_and!; vm_compute; reflexivity. Qed.

Example calculate_sum_initial :
  calculate_sum [1; 2; 3; 4; 5; 6; 7; 8; 9; 10] 10 = Some 55.
Proof. reflexivity. Qed.

Example calculate_sum_prefix :
  calculate_sum [1; 2; 3; 4; 5; 6; 7; 8; 9; 10] 3 = Some 6.
Proof. reflexivity. Qed.

Example calculate_sum_past_end : calculate_sum [1; 2; 3] 4 = None.
Proof. reflexivity. Qed.

(** ** Facts about [int] arithmetic *)

Lemma wrap_int_id z : in_int z → wrap_int z = z.
Proof.
  unfold in_int, INT_MIN, INT_MAX, wrap_int. intros H.
  rewrite Z.mod_small; lia.
Qed.

Lemma wrap_int_range z : in_int (wrap_int z).
Proof.
  unfold in_int, INT_MIN, INT_MAX, wrap_int.
  pose proof (Z.mod_pos_bound (z + 2 ^ 31) (2 ^ 32)). lia.
Qed.

Lemma wrap_int_add_l a b : wrap_int (wrap_int a + b) = wrap_int (a + b).
Proof.
  unfold wrap_int. f_equal.
  replace ((a + 2 ^ 31) `mod` 2 ^ 32 - 2 ^ 31 + b + 2 ^ 31)
    with ((a + 2 ^ 31) `mod` 2 ^ 32 + b) by lia.
  rewrite Zplus_mod_idemp_l. f_equal. lia.
Qed.

Lemma wrap_int_add_r a b : wrap_int (a + wrap_int b) = wrap_int (a + b).
Proof. rewrite (Z.add_comm a), wrap_int_add_l. f_equal. lia. Qed.

Lemma sum_Z_app l1 l2 : sum_Z (l1 ++ l2) = sum_Z l1 + sum_Z l2.
Proof. induction l1 as [|x l1 IH]; simpl; [done | rewrite IH; lia]. Qed.

Lemma sum_Z_perm l1 l2 : l1 ≡ₚ l2 → sum_Z l1 = sum_Z l2.
Proof. induction 1; simpl; lia. Qed.

Lemma load_Some arr i a :
  load arr i = Some a ↔ 0 <= i ∧ arr !! Z.to_nat i = Some a.
Proof.
  unfold load. destruct (Z.leb_spec 0 i) as [Hi | Hi].
  - split; [by intros ? | by intros [_ ?]].
  - split; [done | lia].
Qed.

Lemma load_in_range arr i :
  0 <= i < Z.of_nat (length arr) → ∃ a, load arr i = Some a.
Proof.
  intros Hi. destruct (lookup_lt_is_Some_2 arr (Z.to_nat i)) as [a Ha]; [lia |].
  exists a. apply load_Some. split; [lia | done].
Qed.

(** The loop adds the elements from [i] up to [size] to the accumulator. *)
Lemma sum_loop_spec n arr size i sum :
  0 <= i <= size → size <= Z.of_nat (length arr) → size <= INT_MAX →
  in_int sum → n = Z.to_nat (size - i) →
  sum_loop n arr size i sum =
    Some (wrap_int (sum + sum_Z (drop (Z.to_nat i) (take (Z.to_nat size) arr)))).
Proof.
  revert i sum. induction n as [|n IH]; intros i sum Hi Hlen Hmax Hsum Hn.
  - assert (i = size) as -> by lia.
    simpl. rewrite Z.ltb_irrefl.
    rewrite drop_ge by (rewrite length_take; lia). simpl.
    rewrite Z.add_0_r, wrap_int_id; done.
  - assert (i < size) as Hlt by lia.
    simpl. destruct (Z.ltb_spec i size) as [_ | ?]; [| lia].
    destruct (load_in_range arr i) as [a Ha]; [lia |].
    unfold sum_iter. rewrite Ha. simpl.
    rewrite (wrap_int_id (i + 1)) by (unfold in_int, INT_MIN, INT_MAX in *; lia).
    rewrite IH; [| lia | lia | lia | apply wrap_int_range | lia].
    apply load_Some in Ha as [_ Ha].
    assert (take (Z.to_nat size) arr !! Z.to_nat i = Some a) as Hta
      by (rewrite lookup_take_lt; [done | lia]).
    rewrite (drop_S _ _ _ Hta). simpl.
    replace (Z.to_nat (i + 1)) with (S (Z.to_nat i)) by lia.
    rewrite wrap_int_add_l. do 2 f_equal. lia.
Qed.

Lemma calculate_sum_take arr size :
  0 <= size <= Z.of_nat (length arr) → size <= INT_MAX →
  calculate_sum arr size = Some (wrap_int (sum_Z (take (Z.to_nat size) arr))).
Proof.
  intros Hs Hmax. unfold calculate_sum.
  rewrite sum_loop_spec; [done | lia | lia | lia | | lia].
  unfold in_int, INT_MIN, INT_MAX; lia.
Qed.

(** ** Theorems about [calculate_sum] *)

(** C6: [calculate_sum] is a function of its arguments alone that returns
    the sum, in [int] arithmetic, of the first [size] elements (the exact
    sum when that sum is an [int]); on two arrays that are permutations of
    one another, summed over their whole length, it returns the same
    result. *)
Theorem calculate_sum_order_independent (a b : list Z) (size : Z) :
  0 <= size <= Z.of_nat (length a) → size <= INT_MAX →
  calculate_sum a size = Some (wrap_int (sum_Z (take (Z.to_nat size) a))) ∧
  (in_int (sum_Z (take (Z.to_nat size) a)) →
     calculate_sum a size = Some (sum_Z (take (Z.to_nat size) a))) ∧
  (a ≡ₚ b → size = Z.of_nat (length a) →
     calculate_sum b (Z.of_nat (length b)) = calculate_sum a size).
Proof.
  intros Hs Hmax. split; [by apply calculate_sum_take |]. split.
  - intros Hin. rewrite calculate_sum_take by done. by rewrite wrap_int_id.
  - intros Hp ->.
    pose proof (Permutation_length Hp) as Hlen.
    rewrite !calculate_sum_take by lia.
    rewrite !Nat2Z.id, <- Hlen, !firstn_all2 by lia.
    by rewrite (sum_Z_perm _ _ Hp).
Qed.

Lemma calculate_sum_order_independent_witness :
  calculate_sum [10; 9; 8; 7; 6; 5; 4; 3; 2; 1] 10 =
  calculate_sum [1; 2; 3; 4; 5; 6; 7; 8; 9; 10] 10.
Proof.
  refine (proj2 (proj2 (calculate_sum_order_independent
            [1; 2; 3; 4; 5; 6; 7; 8; 9; 10] [10; 9; 8; 7; 6; 5; 4; 3; 2; 1] 10 _ _)) _ _).
  - simpl; lia.
  - unfold INT_MAX; lia.
  - apply Permutation_rev.
  - reflexivity.
Defined.

(** C9: for a size that is zero or negative [calculate_sum] returns 0
    whatever the array is, also on the empty array, where any read would
    be outside the object: no element is read. *)
Theorem calculate_sum_nonpositive_size (arr : list Z) (n : Z) :
  n <= 0 → calculate_sum arr n = Some 0 ∧ calculate_sum [] n = Some 0.
Proof.
  intros Hn. unfold calculate_sum.
  replace (Z.to_nat n) with O by lia. simpl.
  destruct (Z.ltb_spec 0 n); [lia | done].
Qed.

Lemma calculate_sum_nonpositive_size_witness :
  calculate_sum [1; 2; 3] (-2) = Some 0 ∧ calculate_sum [] (-2) = Some 0.
Proof. apply (calculate_sum_nonpositive_size [1; 2; 3] (-2)). lia. Defined.

(** ** Steps of one thread *)

Ltac int_lia := unfold in_int, INT_MIN, INT_MAX, NULL in *; lia.

Ltac unfold_step H :=
  unfold thread_step, worker_thread, mutex_user_thread,
    pthread_mutex_lock, pthread_mutex_unlock in H.

(** Case analysis on the point a thread steps from. *)
Ltac thread_cases th H :=
  unfold_step H;
  destruct th as [?d [] | ?d []]; simpl in H;
  repeat case_match; simplify_option_eq.

Lemma thread_step_ok me th g th' g' :
  thread_ok th → thread_step me th g = Some (th', g') → thread_ok th'.
Proof.
  intros Hok H. thread_cases th H; simpl in *; try done;
    try (destruct Hok as [? ?]; split; [done |]);
    try rewrite wrap_int_id by int_lia; try int_lia.
Qed.

Lemma thread_step_mutex1 me th g th' g' :
  thread_step me th g = Some (th', g') →
  lock_trans me (holds1 th) (holds1 th') (mutex1 g) (mutex1 g').
Proof.
  intros H. thread_cases th H; simpl;
    repeat match goal with Hm : mutex1 _ = _ |- _ => rewrite Hm end;
    constructor.
Qed.

Lemma thread_step_mutex2 me th g th' g' :
  thread_step me th g = Some (th', g') →
  lock_trans me (holds2 th) (holds2 th') (mutex2 g) (mutex2 g').
Proof.
  intros H. thread_cases th H; simpl;
    repeat match goal with Hm : mutex2 _ = _ |- _ => rewrite Hm end;
    constructor.
Qed.

(** ** Lists of threads *)

Lemma lock_inv_insert holds m m' pool k th th' :
  lock_inv holds m pool → pool !! k = Some th →
  lock_trans (Thread k) (holds th) (holds th') m m' →
  lock_inv holds m' (<[k := th']> pool).
Proof.
  intros [HA HB] Hk Ht.
  assert (k < length pool)%nat as Hlt by (by eapply lookup_lt_Some).
  assert (∀ j t, <[k := th']> pool !! j = Some t →
            (j = k ∧ t = th') ∨ (j ≠ k ∧ pool !! j = Some t)) as Hcase.
  { intros j t Hj. destruct (decide (j = k)) as [-> | Hne].
    - rewrite list_lookup_insert_eq in Hj by done. left. by simplify_eq.
    - rewrite list_lookup_insert_ne in Hj by done. by right. }
  inversion Ht as [h m0 Hh Hh' Hm Hm' | Hh Hh' Hm Hm' | Hh Hh' Hm Hm']; subst; split.
  - intros j t Hj Hholds. destruct (Hcase j t Hj) as [[-> ->] | [Hne Hj']].
    + rewrite <- Hh' in Hholds. eauto.
    + eauto.
  - intros t Hm. destruct (HB t Hm) as (j & tj & -> & Hj & Hholds).
    destruct (decide (j = k)) as [-> | Hne].
    + exists k, th'. rewrite list_lookup_insert_eq by done.
      simplify_eq. by rewrite <- Hh'.
    + exists j, tj. by rewrite list_lookup_insert_ne.
  - intros j t Hj Hholds. destruct (Hcase j t Hj) as [[-> ->] | [Hne Hj']]; [done |].
    specialize (HA j t Hj' Hholds). congruence.
  - intros t ?. simplify_eq. exists k, th'.
    by rewrite list_lookup_insert_eq.
  - intros j t Hj Hholds. destruct (Hcase j t Hj) as [[-> ->] | [Hne Hj']]; [congruence |].
    specialize (HA j t Hj' Hholds). congruence.
  - intros t ?. congruence.
Qed.

Lemma lock_inv_create holds m pool th :
  lock_inv holds m pool → holds th = false →
  lock_inv holds m (pthread_create th pool).
Proof.
  intros [HA HB] Hth. unfold pthread_create. split.
  - intros k t Hk Hholds. apply lookup_app_Some in Hk as [Hk | [_ Hk]]; [eauto |].
    apply list_lookup_singleton_Some in Hk as [_ <-]. congruence.
  - intros t Hm. destruct (HB t Hm) as (j & tj & -> & Hj & Hholds).
    exists j, tj. split_and!; [done | | done]. by apply lookup_app_l_Some.
Qed.

Lemma sum_Z_insert {A} (f : A → Z) (l : list A) k x y :
  l !! k = Some x → sum_Z (f <$> <[k := y]> l) = sum_Z (f <$> l) - f x + f y.
Proof.
  revert k. induction l as [|a l IH]; intros [|k] Hk; simplify_eq/=; [lia |].
  rewrite (IH k Hk). lia.
Qed.

Lemma sum_Z_snoc {A} (f : A → Z) (l : list A) x :
  sum_Z (f <$> (l ++ [x])) = sum_Z (f <$> l) + f x.
Proof. rewrite fmap_app, sum_Z_app. simpl. lia. Qed.

(** A step of a thread keeps its start routine and its descriptor. *)
Lemma thread_step_same_routine me th g th' g' :
  thread_step me th g = Some (th', g') →
  (∃ d pc pc', th = Worker d pc ∧ th' = Worker d pc') ∨
  (∃ d pc pc', th = Mutex_user d pc ∧ th' = Mutex_user d pc').
Proof.
  unfold thread_step. intros H. destruct th as [d pc | d pc].
  - destruct (worker_thread me d pc g) as [[pc' g0] |]; simplify_eq/=.
    left. eauto.
  - destruct (mutex_user_thread me d pc g) as [[pc' g0] |]; simplify_eq/=.
    right. eauto.
Qed.

(** ** Steps of the process, taken apart *)

Lemma step_Main cfg s s' :
  step cfg Main s = Some s' →
  ∃ pc' pool' g',
    main cfg (argc s) (argv s) (main_at s) (pool s) (mem s) = Some (pc', pool', g') ∧
    s' = {| argc := argc s; argv := argv s; main_at := pc'; pool := pool'; mem := g' |}.
Proof.
  unfold step. intros H.
  destruct (main cfg (argc s) (argv s) (main_at s) (pool s) (mem s))
    as [[[pc' pool'] g'] |] eqn:Hm;
    simplify_eq/=.
  by exists pc', pool', g'.
Qed.

Lemma step_Thread cfg k s s' :
  step cfg (Thread k) s = Some s' →
  ∃ th th' g',
    pool s !! k = Some th ∧
    thread_step (Thread k) th (mem s) = Some (th', g') ∧
    s' = {| argc := argc s; argv := argv s; main_at := main_at s;
            pool := <[k := th']> (pool s); mem := g' |}.
Proof.
  unfold step. intros H.
  destruct (pool s !! k) as [th |] eqn:Hk; simplify_eq/=.
  destruct (thread_step (Thread k) th (mem s)) as [[th' g'] |] eqn:Hth; simplify_eq/=.
  by exists th, th', g'.
Qed.

Ltac main_cases pc H :=
  unfold main, call_calculate_sum, sum_iter in H;
  destruct pc; simpl in H; repeat case_match; simplify_option_eq.

(** [main] touches no global but the standard output, and changes the
    pool only by creating a thread. *)
Lemma main_frame cfg ac av pc pool g pc' pool' g' :
  main cfg ac av pc pool g = Some (pc', pool', g') →
  mutex1 g' = mutex1 g ∧ mutex2 g' = mutex2 g ∧
  counter g' = counter g ∧ array g' = array g ∧
  (pool' = pool ∨ ∃ th, at_entry th ∧ pool' = pthread_create th pool).
Proof.
  intros H. main_cases pc H; split_and!; try done; try (by left);
    right; eexists; (split; [| done]); done.
Qed.

Lemma lookup_insert_cases {A} (l : list A) k x j y :
  <[k := x]> l !! j = Some y →
  (j = k ∧ y = x ∧ (k < length l)%nat) ∨ (j ≠ k ∧ l !! j = Some y).
Proof.
  intros Hj. destruct (decide (j = k)) as [-> | Hne].
  - assert (k < length l)%nat as Hlt.
    { apply lookup_lt_Some in Hj. by rewrite length_insert in Hj. }
    rewrite list_lookup_insert_eq in Hj by done. left. by simplify_eq.
  - rewrite list_lookup_insert_ne in Hj by done. by right.
Qed.

Lemma lookup_create_cases th (pool : list thread) j y :
  pthread_create th pool !! j = Some y →
  pool !! j = Some y ∨ (j = length pool ∧ y = th).
Proof.
  unfold pthread_create. intros Hj.
  apply lookup_app_Some in Hj as [Hj | [Hge Hj]]; [by left |].
  apply list_lookup_singleton_Some in Hj as [Hz <-]. right. split; [lia | done].
Qed.

(** ** The shape of the pool *)

Lemma pool_inv_start cfg argc argv : config_ok cfg → pool_inv cfg (start argc argv).
Proof. intros Hcfg. split_and!; simpl; try done. Qed.

Lemma pool_inv_step cfg t s s' :
  config_ok cfg → pool_inv cfg s → step cfg t s = Some s' → pool_inv cfg s'.
Proof.
  intros [Hnt HK] (Hmain & Hlen & Hpool) Hstep. destruct t as [| k].
  - apply step_Main in Hstep as (pc' & pool' & g' & Hm & ->).
    unfold pool_inv. simpl.
    destruct (main_at s) eqn:Hpc; unfold main, call_calculate_sum, sum_iter in Hm;
      simpl in *; repeat case_match; simplify_option_eq;
      try (split_and!; simpl; try done; try int_lia;
           try rewrite wrap_int_id by int_lia; try int_lia; fail).
    + (* a counter worker is created *)
      rewrite wrap_int_id by int_lia.
      assert (Z.of_nat (length (pool s)) < num_threads cfg - 1) as Hlt by lia.
      split; [lia |]. split.
      { unfold pthread_create. rewrite length_app. simpl. lia. }
      intros j th Hj. apply lookup_create_cases in Hj as [Hj | [-> ->]]; [eauto |].
      unfold slot_ok.
      destruct (Z.ltb_spec (Z.of_nat (length (pool s))) (num_threads cfg - 1)); [| lia].
      split; [eauto | simpl; split; [done | lia]].
    + (* the array worker is created *)
      split; [lia |]. split.
      { unfold pthread_create. rewrite length_app. simpl. lia. }
      intros j th Hj. apply lookup_create_cases in Hj as [Hj | [-> ->]]; [eauto |].
      unfold slot_ok. rewrite Hlen.
      destruct (Z.ltb_spec (num_threads cfg - 1) (num_threads cfg - 1)); [lia |].
      split; [eauto | done].
  - apply step_Thread in Hstep as (th & th' & g' & Hk & Hth & ->).
    unfold pool_inv. simpl. rewrite length_insert.
    split_and!; [done | done |].
    intros j t Hj. apply lookup_insert_cases in Hj as [(-> & -> & _) | [_ Hj]]; [| eauto].
    destruct (Hpool k th Hk) as [Hslot Hok]. split; [| by eapply thread_step_ok].
    unfold slot_ok in *.
    destruct (thread_step_same_routine _ _ _ _ _ Hth)
      as [(d & pc & pc' & -> & ->) | (d & pc & pc' & -> & ->)];
      case_match; destruct Hslot as [pc0 Hslot]; simplify_eq; eauto.
Qed.

(** ** The two mutexes *)

Lemma at_entry_fresh th :
  at_entry th →
  holds1 th = false ∧ holds2 th = false ∧ incs th = 0 ∧ doubled th = 0 ∧
  returned th = None.
Proof. destruct th as [d [] | d []]; simpl; try done. by case_match. Qed.

Lemma locks_inv_start argc argv : locks_inv (start argc argv).
Proof. split; (split; [intros k th Hk; by simpl in Hk | by intros t Hm]). Qed.

Lemma locks_inv_step cfg t s s' :
  locks_inv s → step cfg t s = Some s' → locks_inv s'.
Proof.
  intros [H1 H2] Hstep. destruct t as [| k].
  - apply step_Main in Hstep as (pc' & pool' & g' & Hm & ->).
    apply main_frame in Hm as (Hm1 & Hm2 & _ & _ & Hpool).
    unfold locks_inv. simpl. rewrite Hm1, Hm2.
    destruct Hpool as [-> | (th & Hentry & ->)]; [done |].
    apply at_entry_fresh in Hentry as (? & ? & _).
    split; by apply lock_inv_create.
  - apply step_Thread in Hstep as (th & th' & g' & Hk & Hth & ->).
    split; simpl; eapply lock_inv_insert; eauto using thread_step_mutex1, thread_step_mutex2.
Qed.

(** ** The counter invariant *)

Lemma pending_counter_holds1 th tmp : pending_counter th = Some tmp → holds1 th = true.
Proof. destruct th as [d [] | d []]; simpl; done. Qed.

Lemma thread_step_counter me th g th' g' base :
  thread_ok th → thread_step me th g = Some (th', g') →
  counter g = wrap_int (base + incs th) →
  (∀ tmp, pending_counter th = Some tmp → tmp = counter g) →
  counter g' = wrap_int (base + incs th') ∧
  (∀ tmp, pending_counter th' = Some tmp → tmp = counter g') ∧
  (holds1 th = false → counter g' = counter g).
Proof.
  intros Hok H Hc Hp. thread_cases th H; simpl in *;
    try (split_and!; [done | done | done]).
  - (* the loop of a worker ends *)
    destruct Hok as [_ Hi]. split_and!; [| done | done].
    rewrite Hc. do 2 f_equal. lia.
  - (* the read of counter++ *)
    split_and!; [done | by intros ? [= <-] | done].
  - (* the write of counter++ *)
    rewrite (Hp tmp eq_refl). split_and!; [| done | done].
    rewrite Hc, wrap_int_add_l. f_equal. lia.
  - (* i++ *)
    destruct Hok as [? ?]. rewrite (wrap_int_id (i + 1)) by int_lia. done.
Qed.

Lemma counter_inv_start argc argv : counter_inv (start argc argv).
Proof. split; [done | intros k th tmp Hk; by simpl in Hk]. Qed.

Lemma counter_inv_step cfg t s s' :
  pool_inv cfg s → locks_inv s → counter_inv s →
  step cfg t s = Some s' → counter_inv s'.
Proof.
  intros (_ & _ & Hpool) [[HA _] _] [Hc Hp] Hstep. destruct t as [| k].
  - apply step_Main in Hstep as (pc' & pool' & g' & Hm & ->).
    apply main_frame in Hm as (_ & _ & Hcnt & _ & Hcreate).
    unfold counter_inv. simpl. rewrite Hcnt.
    destruct Hcreate as [-> | (th & Hentry & ->)]; [done |].
    apply at_entry_fresh in Hentry as (Hh & _ & Hincs & _).
    split.
    + unfold pthread_create. rewrite sum_Z_snoc, Hincs, Z.add_0_r. done.
    + intros j t tmp Hj Htmp. apply lookup_create_cases in Hj as [Hj | [-> ->]]; [eauto |].
      apply pending_counter_holds1 in Htmp. congruence.
  - apply step_Thread in Hstep as (th & th' & g' & Hk & Hth & ->).
    destruct (Hpool k th Hk) as [_ Hok].
    destruct (thread_step_counter _ _ _ _ _ (sum_Z (incs <$> pool s) - incs th)
                Hok Hth) as (Hc' & Hp' & Hsame).
    { rewrite Hc. f_equal. lia. }
    { intros tmp. by apply (Hp k th). }
    split; simpl.
    + rewrite Hc', (sum_Z_insert _ _ _ _ _ Hk). f_equal; lia.
    + intros j t tmp Hj Htmp.
      apply lookup_insert_cases in Hj as [(-> & -> & _) | [Hne Hj]]; [eauto |].
      rewrite Hsame; [eauto |].
      destruct (holds1 th) eqn:Hh; [| done].
      pose proof (HA k th Hk Hh) as Hm1.
      pose proof (HA j t Hj (pending_counter_holds1 _ _ Htmp)) as Hm2.
      congruence.
Qed.

(** ** The array invariant *)

Lemma created_le cfg s :
  config_ok cfg → pool_inv cfg s → Z.of_nat (length (pool s)) <= num_threads cfg.
Proof.
  intros [Hnt _] (Hmain & Hlen & _). rewrite Hlen.
  destruct (main_at s); simpl in *; lia.
Qed.

(** The array worker is alone: every other thread is a counter worker. *)
Lemma pool_unique_mutex_user cfg s k d pc :
  config_ok cfg → pool_inv cfg s → pool s !! k = Some (Mutex_user d pc) →
  Z.of_nat k = num_threads cfg - 1 ∧
  ∀ j t, j ≠ k → pool s !! j = Some t → ∃ d' pc', t = Worker d' pc'.
Proof.
  intros Hcfg Hinv Hk. pose proof (created_le _ _ Hcfg Hinv) as Hle.
  destruct Hinv as (_ & _ & Hpool).
  assert (Z.of_nat k = num_threads cfg - 1) as Hkeq.
  { destruct (Hpool k _ Hk) as [Hslot _]. unfold slot_ok in Hslot.
    apply lookup_lt_Some in Hk.
    destruct (Z.ltb_spec (Z.of_nat k) (num_threads cfg - 1)); [| lia].
    by destruct Hslot as [? ?]. }
  split; [done |]. intros j t Hne Hj.
  destruct (Hpool j t Hj) as [Hslot _]. unfold slot_ok in Hslot.
  apply lookup_lt_Some in Hj.
  destruct (Z.ltb_spec (Z.of_nat j) (num_threads cfg - 1)); [| lia].
  destruct Hslot as [pc' ->]. eauto.
Qed.

Lemma sum_Z_cons {A} (f : A → Z) (a : A) (l : list A) :
  sum_Z (f <$> a :: l) = f a + sum_Z (f <$> l).
Proof. done. Qed.

Lemma sum_Z_zero {A} (f : A → Z) (l : list A) :
  (∀ j t, l !! j = Some t → f t = 0) → sum_Z (f <$> l) = 0.
Proof.
  induction l as [|a l IH]; intros Hz; [done |].
  rewrite sum_Z_cons, (Hz 0%nat a), IH; [done | | done].
  intros j t Hj. by apply (Hz (S j) t).
Qed.

Lemma sum_Z_single {A} (f : A → Z) (l : list A) k x :
  (∀ j t, j ≠ k → l !! j = Some t → f t = 0) → l !! k = Some x →
  sum_Z (f <$> l) = f x.
Proof.
  revert k. induction l as [|a l IH]; intros k Hz Hk; [done |].
  rewrite sum_Z_cons. destruct k as [|k]; simpl in Hk.
  - injection Hk as ->. rewrite sum_Z_zero; [lia |].
    intros j t Hj. by apply (Hz (S j) t).
  - rewrite (Hz 0%nat a), (IH k); [lia | | done | done | done].
    intros j t Hne Hj. apply (Hz (S j) t); [lia | done].
Qed.

Lemma worker_step_array me d pc g th' g' :
  thread_step me (Worker d pc) g = Some (th', g') →
  array g' = array g ∧ ∃ pc', th' = Worker d pc'.
Proof.
  intros H. unfold_step H. destruct pc; simpl in H;
    repeat case_match; simplify_option_eq; eauto.
Qed.

Ltac small_index i :=
  match goal with
  | H : 0 <= i < 5 |- _ =>
      assert (i = 0 ∨ i = 1 ∨ i = 2 ∨ i = 3 ∨ i = 4) as Hsmall by lia;
      clear H; destruct Hsmall as [-> | [-> | [-> | [-> | ->]]]]
  end.

Lemma mutex_user_step_array me d pc g th' g' :
  thread_ok (Mutex_user d pc) →
  thread_step me (Mutex_user d pc) g = Some (th', g') →
  array g = array_after (doubled (Mutex_user d pc)) →
  (∀ i tmp, pending_array (Mutex_user d pc) = Some (i, tmp) →
     load initial_array i = Some tmp) →
  array g' = array_after (doubled th') ∧
  (∀ i tmp, pending_array th' = Some (i, tmp) → load initial_array i = Some tmp).
Proof.
  intros Hok H Ha Hp. unfold_step H.
  destruct pc; simpl in *; repeat case_match; simplify_option_eq;
    try (split; [done | by intros ? ?]).
  - (* the loop ends *)
    split; [| by intros ? ?]. rewrite Ha. f_equal. lia.
  - (* the read of array[i] *)
    split; [done |]. intros ? ? [= <- <-].
    match goal with Hl : load _ _ = Some _ |- _ => rewrite Ha in Hl; revert Hl end.
    small_index i; vm_compute; done.
  - (* the write of array[i] *)
    split; [| by intros ? ?].
    specialize (Hp i tmp eq_refl).
    match goal with Hs : store _ _ _ = Some _ |- _ => rewrite Ha in Hs; revert Hs end.
    small_index i; vm_compute in Hp; injection Hp as <-;
      vm_compute; intros [= <-]; done.
Qed.

Lemma array_inv_start argc argv : array_inv (start argc argv).
Proof. split; [by vm_compute | intros k th i tmp Hk; by simpl in Hk]. Qed.

Lemma array_inv_step cfg t s s' :
  config_ok cfg → pool_inv cfg s → array_inv s →
  step cfg t s = Some s' → array_inv s'.
Proof.
  intros Hcfg Hinv [Ha Hp] Hstep. destruct t as [| k].
  - apply step_Main in Hstep as (pc' & pool' & g' & Hm & ->).
    apply main_frame in Hm as (_ & _ & _ & Harr & Hcreate).
    unfold array_inv. simpl. rewrite Harr.
    destruct Hcreate as [-> | (th & Hentry & ->)]; [done |].
    split.
    + apply at_entry_fresh in Hentry as (_ & _ & _ & Hd & _).
      unfold pthread_create. by rewrite sum_Z_snoc, Hd, Z.add_0_r.
    + intros j t i tmp Hj Htmp.
      apply lookup_create_cases in Hj as [Hj | [-> ->]]; [eauto |].
      destruct th as [d [] | d []]; done.
  - apply step_Thread in Hstep as (th & th' & g' & Hk & Hth & ->).
    destruct th as [d pc | d pc].
    + destruct (worker_step_array _ _ _ _ _ _ Hth) as [Harr [pc' ->]].
      split; simpl.
      * rewrite Harr, Ha, (sum_Z_insert _ _ _ _ _ Hk). simpl. f_equal. lia.
      * intros j t i tmp Hj Htmp.
        apply lookup_insert_cases in Hj as [(-> & -> & _) | [Hne Hj]]; [done | eauto].
    + destruct (pool_unique_mutex_user _ _ _ _ _ Hcfg Hinv Hk) as [_ Hothers].
      assert (sum_Z (doubled <$> pool s) = doubled (Mutex_user d pc)) as Hsum.
      { apply (sum_Z_single _ _ k); [| done].
        intros j t Hne Hj. destruct (Hothers j t Hne Hj) as (d' & pc' & ->). done. }
      destruct Hinv as (_ & _ & Hpool). destruct (Hpool k _ Hk) as [_ Hok].
      destruct (mutex_user_step_array _ _ _ _ _ _ Hok Hth) as [Ha' Hp'].
      { by rewrite Ha, Hsum. }
      { intros i tmp. by apply (Hp k). }
      split; simpl.
      * rewrite Ha', (sum_Z_insert _ _ _ _ _ Hk), Hsum. f_equal. lia.
      * intros j t i tmp Hj Htmp.
        apply lookup_insert_cases in Hj as [(-> & -> & _) | [Hne Hj]]; eauto.
Qed.

(** ** Joined threads *)

Lemma returned_no_step me th g : is_Some (returned th) → thread_step me th g = None.
Proof. destruct th as [d [] | d []]; simpl; by intros [? ?]. Qed.

Lemma join_inv_start cfg argc argv : join_inv cfg (start argc argv).
Proof. intros k th _ Hk. by simpl in Hk. Qed.

Lemma join_inv_step cfg t s s' :
  config_ok cfg → pool_inv cfg s → join_inv cfg s →
  step cfg t s = Some s' → join_inv cfg s'.
Proof.
  intros Hcfg Hinv Hj Hstep. destruct t as [| k].
  - pose proof (created_le _ _ Hcfg Hinv) as Hle.
    destruct Hcfg as [Hnt _]. destruct Hinv as (Hmain & Hlen & _).
    apply step_Main in Hstep as (pc' & pool' & g' & Hm & ->).
    unfold join_inv in *. simpl.
    destruct (main_at s) eqn:Hpc; unfold main, call_calculate_sum, sum_iter in Hm;
      simpl in *; repeat case_match; simplify_option_eq;
      try (intros; lia); try done.
    + (* one more thread is joined *)
      intros k th Hk Hth. rewrite wrap_int_id in Hk by int_lia.
      destruct (decide (Z.of_nat k < i)) as [? | Hge]; [eauto |].
      assert (k = Z.to_nat i) as -> by lia.
      unfold pthread_join in *. case_match; simplify_option_eq. eauto.
    + (* all threads are joined *)
      intros k th _ Hth. apply (Hj k th); [| done].
      apply lookup_lt_Some in Hth. lia.
  - apply step_Thread in Hstep as (th & th' & g' & Hk & Hth & ->).
    intros j t Hlt Hjt. simpl in *.
    apply lookup_insert_cases in Hjt as [(-> & -> & _) | [Hne Hjt]]; [| eauto].
    rewrite returned_no_step in Hth; [done | eauto].
Qed.

(** ** The sums of main *)

Lemma doubled_range th : thread_ok th → 0 <= doubled th <= 5.
Proof. destruct th as [d [] | d []]; simpl; lia. Qed.

(** Whatever the array worker has done so far, element [i] of [array] is
    its initial value or twice that. *)
Lemma load_array_after i p :
  0 <= i < 10 → 0 <= p <= 5 →
  ∃ a, load (array_after p) i = Some a ∧
       prefix_sum initial_array (i + 1) - prefix_sum initial_array i <= a ∧
       a <= prefix_sum final_array (i + 1) - prefix_sum final_array i ∧
       0 <= prefix_sum initial_array i <= prefix_sum initial_array (i + 1) ∧
       0 <= prefix_sum final_array i ∧ prefix_sum final_array (i + 1) <= 70 ∧
       (p = 5 → prefix_sum final_array (i + 1) = prefix_sum final_array i + a) ∧
       (p = 0 → prefix_sum initial_array (i + 1) = prefix_sum initial_array i + a).
Proof.
  intros Hi Hp.
  assert (p = 0 ∨ p = 1 ∨ p = 2 ∨ p = 3 ∨ p = 4 ∨ p = 5) as Hpc by lia.
  assert (i = 0 ∨ i = 1 ∨ i = 2 ∨ i = 3 ∨ i = 4 ∨
          i = 5 ∨ i = 6 ∨ i = 7 ∨ i = 8 ∨ i = 9) as Hic by lia.
  clear Hi Hp.
  destruct Hpc as [-> | [-> | [-> | [-> | [-> | ->]]]]];
    destruct Hic as [-> | [-> | [-> | [-> | [-> | [-> | [-> | [-> | [-> | ->]]]]]]]]];
    (eexists; split; [vm_compute; reflexivity |]); vm_compute; intuition congruence.
Qed.

(** The array worker, the only thread that doubles elements, doubles five. *)
Lemma doubled_sum_range cfg s :
  config_ok cfg → pool_inv cfg s → 0 <= sum_Z (doubled <$> pool s) <= 5.
Proof.
  intros Hcfg Hinv.
  assert ((∀ j t, pool s !! j = Some t → doubled t = 0) ∨
          (∃ k d pc, pool s !! k = Some (Mutex_user d pc))) as [Hall | (k & d & pc & Hk)].
  { generalize (pool s). intros l. induction l as [|a l [IH | (k & d & pc & Hk)]].
    - left. intros j t Hj. done.
    - destruct a as [d pc | d pc].
      + left. intros [|j] t Hj; simplify_eq/=; eauto.
      + right. by exists 0%nat, d, pc.
    - right. by exists (S k), d, pc. }
  - rewrite sum_Z_zero by done. lia.
  - destruct (pool_unique_mutex_user _ _ _ _ _ Hcfg Hinv Hk) as [_ Hothers].
    rewrite (sum_Z_single _ _ k (Mutex_user d pc)); [| | done].
    + destruct Hinv as (_ & _ & Hpool). destruct (Hpool k _ Hk) as [_ Hok].
      by apply doubled_range.
    + intros j t Hne Hj. by destruct (Hothers j t Hne Hj) as (d' & pc' & ->).
Qed.

(** The shape of the array at any time. *)
Lemma array_shape cfg s :
  config_ok cfg → pool_inv cfg s → array_inv s →
  ∃ p, 0 <= p <= 5 ∧ array (mem s) = array_after p.
Proof.
  intros Hcfg Hinv [Ha _]. exists (sum_Z (doubled <$> pool s)).
  split; [by eapply doubled_sum_range | done].
Qed.

Lemma doubled_mono me th g th' g' :
  thread_ok th → thread_step me th g = Some (th', g') → doubled th <= doubled th'.
Proof.
  intros Hok H. thread_cases th H; simpl in *;
    try rewrite wrap_int_id by int_lia; lia.
Qed.

(** Once an element is doubled it stays so. *)
Lemma doubled_sum_step cfg t s s' :
  pool_inv cfg s → step cfg t s = Some s' →
  sum_Z (doubled <$> pool s) <= sum_Z (doubled <$> pool s').
Proof.
  intros (_ & _ & Hpool) Hstep. destruct t as [| k].
  - apply step_Main in Hstep as (pc' & pool' & g' & Hm & ->).
    apply main_frame in Hm as (_ & _ & _ & _ & Hcreate). simpl.
    destruct Hcreate as [-> | (th & Hentry & ->)]; [done |].
    apply at_entry_fresh in Hentry as (_ & _ & _ & Hd & _).
    unfold pthread_create. rewrite sum_Z_snoc, Hd. lia.
  - apply step_Thread in Hstep as (th & th' & g' & Hk & Hth & ->). simpl.
    destruct (Hpool k th Hk) as [_ Hok].
    pose proof (doubled_mono _ _ _ _ _ Hok Hth).
    rewrite (sum_Z_insert _ _ _ _ _ Hk). lia.
Qed.

(** Once every thread is joined, the array worker has returned. *)
Lemma joined_array cfg s :
  config_ok cfg → pool_inv cfg s → array_inv s → join_inv cfg s →
  joined cfg (main_at s) = num_threads cfg →
  array (mem s) = final_array.
Proof.
  intros Hcfg Hinv [Ha _] Hj Hall.
  assert (Z.of_nat (length (pool s)) = num_threads cfg) as Hlen.
  { destruct Hinv as (Hm & Hlen & _). rewrite Hlen.
    destruct Hcfg as [Hnt _].
    destruct (main_at s); simpl in *; try done; lia. }
  destruct Hcfg as [Hnt HK].
  destruct (lookup_lt_is_Some_2 (pool s) (Z.to_nat (num_threads cfg - 1))) as [th Hth];
    [lia |].
  pose proof Hinv as (_ & _ & Hpool). destruct (Hpool _ _ Hth) as [Hslot _].
  unfold slot_ok in Hslot.
  destruct (Z.ltb_spec (Z.of_nat (Z.to_nat (num_threads cfg - 1))) (num_threads cfg - 1));
    [lia |].
  destruct Hslot as [pc ->].
  assert (Z.of_nat (Z.to_nat (num_threads cfg - 1)) < joined cfg (main_at s)) as Hlt
    by (rewrite Hall; lia).
  destruct (Hj _ _ Hlt Hth) as [r Hr].
  destruct pc; simplify_eq/=.
  destruct (pool_unique_mutex_user _ _ _ _ _ (conj Hnt HK) Hinv Hth) as [_ Hothers].
  rewrite Ha. erewrite sum_Z_single; [| | exact Hth]; [done |].
  intros j t Hne Hjt. by destruct (Hothers j t Hne Hjt) as (d' & pc' & ->).
Qed.

Lemma sums_inv_start argc argv : sums_inv (start argc argv).
Proof. done. Qed.

Lemma sums_inv_step cfg t s s' :
  config_ok cfg → pool_inv cfg s → array_inv s → join_inv cfg s → sums_inv s →
  step cfg t s = Some s' → sums_inv s'.
Proof.
  intros Hcfg Hinv Harr Hj Hs Hstep.
  pose proof (doubled_sum_range _ _ Hcfg Hinv) as Hp.
  pose proof (doubled_sum_step _ _ _ _ Hinv Hstep) as Hmono.
  destruct t as [| k].
  - pose proof (proj1 Harr) as Hshape.
    pose proof (joined_array _ _ Hcfg Hinv Harr Hj) as Hfinal.
    pose proof Hinv as (Hmain & _ & _).
    apply step_Main in Hstep as (pc' & pool' & g' & Hm & ->).
    unfold sums_inv in *. simpl in Hmono |- *.
    destruct (main_at s) eqn:Hpc; unfold main, call_calculate_sum, sum_iter in Hm;
      simpl in *; repeat case_match; simplify_option_eq; try done.
    + (* a pass of the first sum *)
      destruct (load_array_after i (sum_Z (doubled <$> pool s)))
        as (a & Hload & Hlo & Hhi & H0 & H0' & H70 & _ & Hex); [lia | lia |].
      rewrite Hshape in *. simplify_eq.
      rewrite !wrap_int_id by int_lia.
      split; [lia |]. intros Hz. specialize (Hex Hz). lia.
    + (* the first sum is complete *)
      assert (i = 10) as -> by lia.
      change (prefix_sum initial_array 10) with 55 in Hs.
      change (prefix_sum final_array 10) with 70 in Hs. done.
    + (* a pass of the second sum *)
      destruct (load_array_after i 5)
        as (a & Hload & Hlo & Hhi & H0 & H0' & H70 & Hex & _); [lia | lia |].
      specialize (Hex eq_refl).
      rewrite Hfinal in * by done. unfold final_array in *. simplify_eq.
      rewrite !wrap_int_id by int_lia. lia.
    + (* the second sum is complete *)
      assert (i = 10) as -> by lia. by vm_compute.
  - apply step_Thread in Hstep as (th & th' & g' & Hk & Hth & ->).
    unfold sums_inv in *. simpl in *.
    destruct (main_at s); try done;
      (destruct Hs as [Hb Hz]; split; [done |]; intros Hz'; apply Hz; lia).
Qed.

(** ** The output of main *)

Lemma sum_Z_slots {A} (f : A → Z) (l : list A) (n c : Z) :
  0 <= n →
  (∀ k t, l !! k = Some t → f t = if Z.of_nat k <? n then c else 0) →
  sum_Z (f <$> l) = c * Z.min (Z.of_nat (length l)) n.
Proof.
  intros Hn. induction l as [|x l IH] using rev_ind; intros Hf.
  - simpl. rewrite Z.min_l by lia. lia.
  - rewrite sum_Z_snoc, IH, length_app.
    + rewrite (Hf (length l) x) by (by apply list_lookup_middle).
      simpl. destruct (Z.ltb_spec (Z.of_nat (length l)) n).
      * rewrite !Z.min_l by lia. lia.
      * rewrite !Z.min_r by lia. lia.
    + intros k t Hk. apply Hf. by apply lookup_app_l_Some.
Qed.

(** Once every thread is joined, [counter] holds the increments of all the
    counter workers. *)
Lemma joined_counter cfg s :
  config_ok cfg → pool_inv cfg s → counter_inv s → join_inv cfg s →
  joined cfg (main_at s) = num_threads cfg →
  counter (mem s) = wrap_int (total cfg).
Proof.
  intros [Hnt HK] Hinv [Hc _] Hj Hall.
  assert (Z.of_nat (length (pool s)) = num_threads cfg) as Hlen.
  { destruct Hinv as (Hm & Hlen & _). rewrite Hlen.
    destruct (main_at s); simpl in *; try done; lia. }
  destruct Hinv as (_ & _ & Hpool).
  rewrite Hc. f_equal. unfold total.
  rewrite (sum_Z_slots _ _ (num_threads cfg - 1) (Z.max 0 (worker_iterations cfg)));
    [lia | lia |].
  intros k t Hk. destruct (Hpool k t Hk) as [Hslot _]. unfold slot_ok in Hslot.
  assert (Z.of_nat k < joined cfg (main_at s)) as Hlt.
  { apply lookup_lt_Some in Hk. lia. }
  destruct (Hj k t Hlt Hk) as [r Hr].
  case_match; destruct Hslot as [pc ->]; [| done].
  by destruct pc.
Qed.

Lemma thread_step_stdout me th g th' g' :
  thread_step me th g = Some (th', g') →
  filter (λ l, main_line l = true) (stdout g') =
  filter (λ l, main_line l = true) (stdout g).
Proof.
  intros H. thread_cases th H; simpl; try done;
    by rewrite filter_app, filter_cons_False, filter_nil, app_nil_r.
Qed.

Lemma filter_snoc_main l out :
  main_line l = true →
  filter (λ l, main_line l = true) (out ++ [l]) =
  filter (λ l, main_line l = true) out ++ [l].
Proof. intros H. by rewrite filter_app, filter_cons_True, filter_nil. Qed.

Lemma out_inv_start cfg argc argv : out_inv cfg (start argc argv).
Proof. exists 55. split; [lia |]. done. Qed.

Lemma out_inv_step cfg t s s' :
  config_ok cfg → pool_inv cfg s → counter_inv s → join_inv cfg s →
  sums_inv s → out_inv cfg s →
  step cfg t s = Some s' → out_inv cfg s'.
Proof.
  intros Hcfg Hinv Hcnt Hj Hs (x & Hx & H55 & Hout) Hstep.
  pose proof (doubled_sum_range _ _ Hcfg Hinv) as Hp.
  pose proof (doubled_sum_step _ _ _ _ Hinv Hstep) as Hmono.
  destruct t as [| k].
  - pose proof (joined_counter _ _ Hcfg Hinv Hcnt Hj) as Hfinal.
    apply step_Main in Hstep as (pc' & pool' & g' & Hm & ->).
    unfold out_inv, sums_inv in *. simpl in Hmono |- *.
    destruct (main_at s) eqn:Hpc; unfold main, call_calculate_sum, sum_iter in Hm;
      simpl in *; repeat case_match; simplify_option_eq;
      try (exists x; split; [done |]; split; [intros ?; apply H55; lia |]; done);
      try (exists x; split; [done |]; split; [intros ?; apply H55; lia |];
           rewrite filter_snoc_main, Hout by done;
           try rewrite Hfinal by done; by simpl).
    destruct Hs as [Hb Hz].
    exists sum. split; [done |]. split; [done |].
    rewrite filter_snoc_main, Hout by done. done.
  - apply step_Thread in Hstep as (th & th' & g' & Hk & Hth & ->).
    exists x. split; [done |]. simpl in *. split; [intros ?; apply H55; lia |].
    by rewrite (thread_step_stdout _ _ _ _ _ Hth).
Qed.

(** ** The invariant holds on every interleaving *)

Lemma inv_start cfg argc argv : config_ok cfg → inv cfg (start argc argv).
Proof.
  intros Hcfg. split.
  - by apply pool_inv_start.
  - apply locks_inv_start.
  - apply counter_inv_start.
  - apply array_inv_start.
  - apply join_inv_start.
  - apply sums_inv_start.
  - apply out_inv_start.
Qed.

Lemma inv_step cfg t s s' :
  config_ok cfg → inv cfg s → step cfg t s = Some s' → inv cfg s'.
Proof.
  intros Hcfg [] Hstep. split.
  - by eapply pool_inv_step.
  - by eapply locks_inv_step.
  - by eapply counter_inv_step.
  - by eapply array_inv_step.
  - by eapply join_inv_step.
  - by eapply sums_inv_step.
  - by eapply out_inv_step.
Qed.

Lemma inv_run cfg sched s s' :
  config_ok cfg → inv cfg s → run cfg sched s = Some s' → inv cfg s'.
Proof.
  intros Hcfg. revert s. induction sched as [|t sched IH]; intros s Hinv Hrun.
  - by simplify_eq/=.
  - simpl in Hrun. destruct (step cfg t s) as [s1 |] eqn:Hstep; [| done].
    simpl in Hrun. eauto using inv_step.
Qed.

Lemma inv_reachable cfg argc argv s :
  config_ok cfg → reachable cfg argc argv s → inv cfg s.
Proof. intros Hcfg [sched Hrun]. eauto using inv_run, inv_start. Qed.

Lemma sample_ok : config_ok sample.
Proof. unfold config_ok, sample. simpl. int_lia. Qed.

Lemma run_app cfg sched1 sched2 s :
  run cfg (sched1 ++ sched2) s = s' ← run cfg sched1 s; run cfg sched2 s'.
Proof.
  revert s. induction sched1 as [|t sched1 IH]; intros s; [done |].
  simpl. destruct (step cfg t s); simpl; [apply IH | done].
Qed.

(** ** Every interleaving is finite *)

Lemma thread_fuel_step me th g th' g' :
  thread_ok th → thread_step me th g = Some (th', g') →
  thread_fuel th' = thread_fuel th - 1.
Proof.
  intros Hok H. thread_cases th H; simpl in *;
    try rewrite wrap_int_id by int_lia; lia.
Qed.

Lemma thread_fuel_nonneg th : thread_ok th → 0 <= thread_fuel th.
Proof. destruct th as [d [] | d []]; simpl; lia. Qed.

Lemma main_fuel_nonneg cfg pc : config_ok cfg → main_ok cfg pc → 0 <= main_fuel cfg pc.
Proof. intros [Hnt _]. destruct pc; simpl; intros; nia. Qed.

Lemma fuel_step cfg t s s' :
  config_ok cfg → pool_inv cfg s → step cfg t s = Some s' →
  fuel cfg s' = fuel cfg s - 1.
Proof.
  intros [Hnt HK] (Hmain & Hlen & Hpool) Hstep. unfold fuel. destruct t as [| k].
  - apply step_Main in Hstep as (pc' & pool' & g' & Hm & ->). simpl.
    destruct (main_at s) eqn:Hpc; unfold main, call_calculate_sum, sum_iter in Hm;
      simpl in *; repeat case_match; simplify_option_eq;
      unfold pthread_create; try rewrite sum_Z_snoc; simpl;
      try rewrite !wrap_int_id by int_lia; try rewrite Z.sub_0_r; try lia.
    assert (num_threads cfg - 1 - Z.of_nat (length (pool s)) = 0) as -> by lia. lia.
  - apply step_Thread in Hstep as (th & th' & g' & Hk & Hth & ->). simpl.
    destruct (Hpool k th Hk) as [_ Hok].
    rewrite (sum_Z_insert _ _ _ _ _ Hk), (thread_fuel_step _ _ _ _ _ Hok Hth). lia.
Qed.

Lemma fuel_nonneg cfg s : config_ok cfg → pool_inv cfg s → 0 <= fuel cfg s.
Proof.
  intros Hcfg (Hmain & _ & Hpool). unfold fuel.
  pose proof (main_fuel_nonneg _ _ Hcfg Hmain).
  assert (0 <= sum_Z (thread_fuel <$> pool s)); [| lia].
  assert (∀ k th, pool s !! k = Some th → thread_ok th) as Hok
    by (intros k th Hk; apply (Hpool k th Hk)).
  revert Hok. generalize (pool s). intros l. induction l as [|a l IH]; intros Hok.
  - done.
  - rewrite sum_Z_cons.
    pose proof (thread_fuel_nonneg a (Hok 0%nat a eq_refl)).
    assert (0 <= sum_Z (thread_fuel <$> l)); [| lia].
    apply IH. intros k th Hk. apply (Hok (S k) th Hk).
Qed.

Lemma run_fuel cfg sched s s' :
  config_ok cfg → inv cfg s → run cfg sched s = Some s' →
  fuel cfg s' = fuel cfg s - Z.of_nat (length sched).
Proof.
  intros Hcfg. revert s. induction sched as [|t sched IH]; intros s Hinv Hrun.
  - simplify_eq/=. lia.
  - simpl in Hrun. destruct (step cfg t s) as [s1 |] eqn:Hstep; [| done].
    simpl in Hrun.
    rewrite (IH s1 (inv_step _ _ _ _ Hcfg Hinv Hstep) Hrun).
    rewrite (fuel_step _ _ _ _ Hcfg (inv_pool _ _ Hinv) Hstep).
    simpl length. lia.
Qed.

(** ** No deadlock *)

Lemma length_array_after p : length (array_after p) = 10%nat.
Proof.
  unfold array_after. rewrite length_app, length_fmap, length_take, length_drop.
  unfold initial_array. simpl. lia.
Qed.

(** A thread that has not returned can step, unless the mutex it is
    waiting for is taken. *)
Lemma thread_enabled me th g :
  thread_ok th → returned th = None →
  (holds1 th = true → mutex1 g = Some me) →
  (holds2 th = true → mutex2 g = Some me) →
  (waits1 th = true → mutex1 g = None) →
  (waits2 th = true → mutex2 g = None) →
  (∃ p, 0 <= p <= 5 ∧ array g = array_after p) →
  is_Some (thread_step me th g).
Proof.
  intros Hok Hret Hh1 Hh2 Hw1 Hw2 (p & Hp & Harr).
  unfold thread_step, worker_thread, mutex_user_thread,
    pthread_mutex_lock, pthread_mutex_unlock.
  destruct th as [d [] | d []]; simpl in *;
    try rewrite (Hh1 eq_refl); try rewrite (Hh2 eq_refl);
    try rewrite (Hw1 eq_refl); try rewrite (Hw2 eq_refl);
    try rewrite decide_True by done;
    try case_match; simpl; try done.
  - (* the read of array[i] *)
    destruct (load_array_after i p) as (a & Hload & _); [lia | lia |].
    rewrite Harr, Hload. done.
  - (* the write of array[i] *)
    unfold store. rewrite Harr, length_array_after.
    destruct (Z.leb_spec 0 i); [| lia].
    destruct (Z.ltb_spec i (Z.of_nat 10)); [| lia]. done.
Qed.

(** As long as [main] has not returned, some task can take a step. *)
Lemma progress cfg s :
  config_ok cfg → inv cfg s → exit_code s = None →
  ∃ t s', step cfg t s = Some s'.
Proof.
  intros Hcfg Hinv Hexit.
  destruct Hinv as [Hpinv [[H1A H1B] [H2A H2B]] _ Harr Hj _ _].
  pose proof (array_shape _ _ Hcfg Hpinv Harr) as Hshape.
  pose proof (created_le _ _ Hcfg Hpinv) as Hle.
  pose proof Hpinv as (Hmain & Hlen & Hpool).
  pose proof Hcfg as [Hnt HK].
  (* a thread that has not returned and does not wait for mutex1 can step *)
  assert (∀ k th, pool s !! k = Some th → returned th = None → waits1 th = false →
            ∃ s', step cfg (Thread k) s = Some s') as Hrunning.
  { intros k th Hk Hret Hw.
    destruct (thread_enabled (Thread k) th (mem s)) as [[th' g'] Hth]; try done.
    - by apply (Hpool k th Hk).
    - eauto.
    - eauto.
    - intros ?. congruence.
    - intros Hw2. destruct (mutex2 (mem s)) as [t |] eqn:Hm2; [| done].
      destruct (H2B t eq_refl) as (j & tj & -> & Hj' & Hholds).
      destruct th as [d pc | d pc]; [by destruct pc |].
      destruct tj as [d' pc' | d' pc']; [done |].
      destruct (pool_unique_mutex_user _ _ _ _ _ Hcfg Hpinv Hk) as [Hkn _].
      destruct (pool_unique_mutex_user _ _ _ _ _ Hcfg Hpinv Hj') as [Hjn _].
      assert (j = k) as -> by lia.
      rewrite Hj' in Hk. injection Hk as <- <-. by destruct pc'.
    - eexists. unfold step. rewrite Hk. simpl. rewrite Hth. done. }
  (* any thread that has not returned can step, or the holder of mutex1 can *)
  assert (∀ k th, pool s !! k = Some th → returned th = None →
            ∃ t s', step cfg t s = Some s') as Hthread.
  { intros k th Hk Hret. destruct (waits1 th) eqn:Hw; [| eauto].
    destruct (mutex1 (mem s)) as [t |] eqn:Hm1.
    - destruct (H1B t eq_refl) as (j & tj & -> & Hj' & Hholds).
      exists (Thread j). apply (Hrunning j tj Hj').
      + destruct tj as [d [] | d []]; done.
      + destruct tj as [d [] | d []]; done.
    - destruct (thread_enabled (Thread k) th (mem s)) as [[th' g'] Hth]; try done.
      + by apply (Hpool k th Hk).
      + intros Hh. destruct th as [d [] | d []]; done.
      + intros Hh. destruct th as [d [] | d []]; done.
      + intros Hw2. destruct th as [d [] | d []]; done.
      + exists (Thread k). eexists. unfold step. rewrite Hk. simpl. rewrite Hth. done. }
  unfold exit_code in Hexit.
  destruct (main_at s) eqn:Hpc; try done;
    try (exists Main; unfold step, main; rewrite Hpc; simpl; eexists; done).
  - (* main creates a counter worker, or is done creating them *)
    exists Main. unfold step, main. rewrite Hpc. case_match; simpl; eexists; done.
  - (* main creates the array worker *)
    exists Main. unfold step, main. rewrite Hpc.
    destruct (Z.leb_spec 0 (num_threads cfg - 1)); [| lia]. simpl. eexists; done.
  - (* a pass of the first sum *)
    exists Main. unfold step, main, call_calculate_sum, sum_iter. rewrite Hpc.
    simpl in Hmain. destruct Hshape as (p & Hp & ->).
    destruct (Z.ltb_spec i 10); [| simpl; eexists; done].
    destruct (load_array_after i p) as (a & -> & _); [lia | lia |].
    simpl. eexists; done.
  - (* main waits for thread i *)
    simpl in Hmain.
    destruct (Z.ltb_spec i (num_threads cfg)) as [Hlt | Hge].
    + destruct (lookup_lt_is_Some_2 (pool s) (Z.to_nat i)) as [th Hth];
        [simpl in Hlen; lia |].
      destruct (returned th) as [r |] eqn:Hret; [| eauto].
      exists Main. unfold step, main, pthread_join. rewrite Hpc.
      destruct (Z.ltb_spec i (num_threads cfg)); [| lia].
      destruct (Z.leb_spec 0 i); [| lia].
      rewrite Hth. simpl. rewrite Hret. simpl. eexists; done.
    + exists Main. unfold step, main. rewrite Hpc.
      destruct (Z.ltb_spec i (num_threads cfg)); [lia |]. simpl. eexists; done.
  - (* a pass of the second sum *)
    exists Main. unfold step, main, call_calculate_sum, sum_iter. rewrite Hpc.
    simpl in Hmain. destruct Hshape as (p & Hp & ->).
    destruct (Z.ltb_spec i 10); [| simpl; eexists; done].
    destruct (load_array_after i p) as (a & -> & _); [lia | lia |].
    simpl. eexists; done.
Qed.

Lemma exit_code_zero cfg s c : pool_inv cfg s → exit_code s = Some c → c = 0.
Proof.
  intros (Hmain & _ & _). unfold exit_code.
  destruct (main_at s); try done. simpl in Hmain. by intros [= <-].
Qed.

(** From any state of the process there is a schedule that takes [main]
    to its [return 0]. *)
Lemma complete_run_exists cfg s :
  config_ok cfg → inv cfg s →
  ∃ sched s', run cfg sched s = Some s' ∧ exit_code s' = Some 0.
Proof.
  intros Hcfg.
  assert (∀ n s, fuel cfg s <= Z.of_nat n → inv cfg s →
            ∃ sched s', run cfg sched s = Some s' ∧ exit_code s' = Some 0) as Hind.
  { clear s. intros n. induction n as [|n IH]; intros s Hfuel Hinv.
    all: destruct (exit_code s) as [c |] eqn:Hexit;
      [ rewrite (exit_code_zero _ _ _ (inv_pool _ _ Hinv) Hexit) in Hexit;
        by exists [], s
      | destruct (progress _ _ Hcfg Hinv Hexit) as (t & s1 & Hstep) ].
    all: pose proof (fuel_step _ _ _ _ Hcfg (inv_pool _ _ Hinv) Hstep) as Hdec.
    all: pose proof (inv_step _ _ _ _ Hcfg Hinv Hstep) as Hinv1.
    all: pose proof (fuel_nonneg _ _ Hcfg (inv_pool _ _ Hinv1)) as Hpos.
    - lia.
    - destruct (IH s1) as (sched & s' & Hrun & Hcode); [lia | done |].
      exists (t :: sched), s'. simpl. rewrite Hstep. done. }
  intros Hinv. apply (Hind (Z.to_nat (fuel cfg s))); [| done].
  pose proof (fuel_nonneg _ _ Hcfg (inv_pool _ _ Hinv)). lia.
Qed.

(** ** The arguments are carried along *)

(** No point of [main] reads [argc] or [argv]. *)
Lemma main_args cfg ac av ac' av' pc pool g :
  main cfg ac' av' pc pool g = main cfg ac av pc pool g.
Proof. by destruct pc. Qed.

Lemma step_with_args cfg t ac av s :
  step cfg t (with_args ac av s) = with_args ac av <$> step cfg t s.
Proof.
  unfold step. destruct t as [| k]; simpl.
  - rewrite (main_args cfg (argc s) (argv s) ac av).
    destruct (main cfg (argc s) (argv s) (main_at s) (pool s) (mem s))
      as [[[pc' pool'] g'] |]; done.
  - destruct (pool s !! k) as [th |]; [| done]. simpl.
    destruct (thread_step (Thread k) th (mem s)) as [[th' g'] |]; done.
Qed.

Lemma run_with_args cfg sched ac av s :
  run cfg sched (with_args ac av s) = with_args ac av <$> run cfg sched s.
Proof.
  revert s. induction sched as [|t sched IH]; intros s; [done |].
  simpl. rewrite step_with_args. destruct (step cfg t s) as [s1 |]; [| done].
  simpl. apply IH.
Qed.

(** * Properties of the program *)

(** ** The counter *)

(** C1: with [C] counter workers of [K] iterations each, on every
    interleaving, a worker in the middle of [counter++] holds mutex1 and
    the value it read is still the value of [counter]; and once all
    threads are joined [counter] is [C * K]. *)
Theorem no_lost_updates (C : nat) (K : Z) (argc : Z) (argv : list string)
    (sched : list task) (s : state) :
  0 <= K <= INT_MAX → Z.of_nat C * K <= INT_MAX → Z.of_nat C + 1 <= INT_MAX →
  run (counter_workers C K) sched (start argc argv) = Some s →
  (∀ k th tmp, pool s !! k = Some th → pending_counter th = Some tmp →
     mutex1 (mem s) = Some (Thread k) ∧ tmp = counter (mem s)) ∧
  (joined (counter_workers C K) (main_at s) = Z.of_nat C + 1 →
     counter (mem s) = Z.of_nat C * K).
Proof.
  intros HK HCK HC Hrun.
  assert (config_ok (counter_workers C K)) as Hcfg.
  { unfold config_ok, counter_workers. simpl. int_lia. }
  pose proof (inv_run _ _ _ _ Hcfg (inv_start _ argc argv Hcfg) Hrun) as Hinv.
  split.
  - intros k th tmp Hk Htmp. split.
    + destruct (inv_locks _ _ Hinv) as [[HA _] _].
      apply (HA k th Hk). by eapply pending_counter_holds1.
    + destruct (inv_counter _ _ Hinv) as [_ Hp]. eauto.
  - intros Hall.
    rewrite (joined_counter _ _ Hcfg (inv_pool _ _ Hinv) (inv_counter _ _ Hinv)
               (inv_join _ _ Hinv) Hall).
    unfold total, counter_workers. simpl.
    rewrite Z.max_r by lia.
    replace (Z.of_nat C + 1 - 1) with (Z.of_nat C) by lia.
    apply wrap_int_id. assert (0 <= Z.of_nat C * K) by nia. int_lia.
Qed.

Lemma no_lost_updates_witness : counter (mem one_by_one_end) = 15.
Proof.
  apply (no_lost_updates 3 5 0 [] one_by_one one_by_one_end).
  - unfold INT_MAX; lia.
  - unfold INT_MAX; lia.
  - unfold INT_MAX; lia.
  - vm_compute; reflexivity.
  - reflexivity.
Defined.

(** C10: a worker whose descriptor has [iterations <= 0] goes from its
    entry to [return NULL] in one step that leaves the counter, the array,
    both mutexes and the output as they were, and it takes no other
    step. *)
Theorem worker_thread_no_iterations (me : task) (data : thread_data_t) (g : globals) :
  iterations data <= 0 →
  worker_thread me data (W_test 0) g = Some (W_return NULL, g) ∧
  worker_thread me data (W_return NULL) g = None ∧
  incs (Worker data (W_return NULL)) = 0.
Proof.
  intros Hle. simpl.
  destruct (Z.ltb_spec 0 (iterations data)); [lia |].
  split_and!; [done | done | lia].
Qed.

Lemma worker_thread_no_iterations_witness :
  worker_thread (Thread 0) {| id := 1; iterations := -3 |} (W_test 0) initial_globals
    = Some (W_return NULL, initial_globals).
Proof.
  apply (worker_thread_no_iterations (Thread 0) {| id := 1; iterations := -3 |}
           initial_globals).
  simpl; lia.
Defined.

(** ** The exit code *)

(** C7: whatever the arguments and the interleaving, [main] has not
    returned or has returned 0; as long as it has not returned some task
    can step; no interleaving has more than 198 steps; and from every
    state reached there is a way on to [return 0]. *)
Theorem main_returns_success (argc : Z) (argv : list string)
    (sched : list task) (s : state) :
  run sample sched (start argc argv) = Some s →
  (exit_code s = None ∨ exit_code s = Some 0) ∧
  (exit_code s = None → ∃ t s', step sample t s = Some s') ∧
  Z.of_nat (length sched) <= 198 ∧
  (∃ sched' s', run sample sched' s = Some s' ∧ exit_code s' = Some 0).
Proof.
  intros Hrun.
  pose proof (inv_start _ argc argv sample_ok) as Hinv0.
  pose proof (inv_run _ _ _ _ sample_ok Hinv0 Hrun) as Hinv.
  split_and!.
  - destruct (exit_code s) as [c |] eqn:Hexit; [| by left].
    right. by rewrite (exit_code_zero _ _ _ (inv_pool _ _ Hinv) Hexit).
  - by apply progress.
  - pose proof (run_fuel _ _ _ _ sample_ok Hinv0 Hrun) as Hfuel.
    pose proof (fuel_nonneg _ _ sample_ok (inv_pool _ _ Hinv)) as Hpos.
    change (fuel sample (start argc argv)) with 198 in Hfuel. lia.
  - by apply complete_run_exists.
Qed.

Lemma main_returns_success_witness : exit_code one_by_one_end = Some 0.
Proof.
  destruct (main_returns_success 0 [] one_by_one one_by_one_end) as ([Hn | Hz] & _).
  - vm_compute; reflexivity.
  - discriminate Hn.
  - exact Hz.
Defined.

(** ** The arguments *)

(** C8: [main] is given [argc] and [argv] and reads them at none of its
    points: a step of [main] is the same on any two argument vectors; and
    two runs on any two argument vectors take the same schedules to states
    that differ in the stored arguments only: the same globals and output,
    the same threads, the same exit code. *)
Theorem main_ignores_arguments (cfg : config) (argc argc' : Z)
    (argv argv' : list string) (sched : list task) :
  (∀ pc pool g, main cfg argc' argv' pc pool g = main cfg argc argv pc pool g) ∧
  run cfg sched (start argc' argv') =
    with_args argc' argv' <$> run cfg sched (start argc argv) ∧
  observable <$> run cfg sched (start argc' argv') =
    observable <$> run cfg sched (start argc argv) ∧
  (run cfg sched (start argc' argv') ≫= exit_code) =
    (run cfg sched (start argc argv) ≫= exit_code).
Proof.
  assert (run cfg sched (start argc' argv') =
            with_args argc' argv' <$> run cfg sched (start argc argv)) as Hrun.
  { change (start argc' argv') with (with_args argc' argv' (start argc argv)).
    apply run_with_args. }
  split; [intros pc pool g; apply main_args |].
  split; [done |]. rewrite Hrun.
  destruct (run cfg sched (start argc argv)) as [s |]; done.
Qed.

(** ** The array *)

Lemma drop_array_after p : 0 <= p <= 5 → drop 5 (array_after p) = [6; 7; 8; 9; 10].
Proof.
  intros Hp.
  assert (p = 0 ∨ p = 1 ∨ p = 2 ∨ p = 3 ∨ p = 4 ∨ p = 5) as Hpc by lia.
  destruct Hpc as [-> | [-> | [-> | [-> | [-> | ->]]]]]; by vm_compute.
Qed.

Lemma array_after_initial p : 0 <= p <= 5 → array_after p = initial_array → p = 0.
Proof.
  intros Hp.
  assert (p = 0 ∨ p = 1 ∨ p = 2 ∨ p = 3 ∨ p = 4 ∨ p = 5) as Hpc by lia.
  destruct Hpc as [-> | [-> | [-> | [-> | [-> | ->]]]]]; vm_compute; congruence.
Qed.

(** The only step that changes [array] is the write of [array[i] *= 2]. *)
Lemma thread_step_array_frame me th g th' g' :
  thread_step me th g = Some (th', g') → array g' ≠ array g →
  ∃ d i tmp, th = Mutex_user d (M_store i tmp).
Proof. intros H Hne. thread_cases th H; simpl in *; try done. eauto. Qed.

(** C4: on every interleaving, once the array worker has returned the
    array is 2,4,6,8,10,6,7,8,9,10; elements 5 to 9 are 6,7,8,9,10 at
    every moment; and no step of the program changes the array but the
    write of [array[i] *= 2] in the array worker. *)
Theorem array_worker_effect (argc : Z) (argv : list string)
    (sched : list task) (s : state) :
  run sample sched (start argc argv) = Some s →
  (∀ k d r, pool s !! k = Some (Mutex_user d (M_return r)) →
     array (mem s) = [2; 4; 6; 8; 10; 6; 7; 8; 9; 10]) ∧
  drop 5 (array (mem s)) = [6; 7; 8; 9; 10] ∧
  (∀ t s', step sample t s = Some s' → array (mem s') ≠ array (mem s) →
     ∃ k d i tmp, t = Thread k ∧ pool s !! k = Some (Mutex_user d (M_store i tmp))).
Proof.
  intros Hrun.
  pose proof (inv_run _ _ _ _ sample_ok (inv_start _ argc argv sample_ok) Hrun) as Hinv.
  pose proof (inv_pool _ _ Hinv) as Hpinv.
  destruct (inv_array _ _ Hinv) as [Ha _].
  split_and!.
  - intros k d r Hk.
    destruct (pool_unique_mutex_user _ _ _ _ _ sample_ok Hpinv Hk) as [_ Hothers].
    rewrite Ha. erewrite sum_Z_single; [| | exact Hk]; [by vm_compute |].
    intros j t Hne Hj. by destruct (Hothers j t Hne Hj) as (d' & pc' & ->).
  - rewrite Ha. apply drop_array_after.
    apply (doubled_sum_range sample); [apply sample_ok | done].
  - intros t s' Hstep Hne. destruct t as [| k].
    + apply step_Main in Hstep as (pc' & pool' & g' & Hm & ->).
      apply main_frame in Hm as (_ & _ & _ & Harr & _). done.
    + apply step_Thread in Hstep as (th & th' & g' & Hk & Hth & ->).
      destruct (thread_step_array_frame _ _ _ _ _ Hth Hne) as (d & i & tmp & ->).
      eauto 10.
Qed.

Lemma array_worker_effect_witness :
  array (mem one_by_one_end) = [2; 4; 6; 8; 10; 6; 7; 8; 9; 10].
Proof.
  refine (proj1 (array_worker_effect 0 [] one_by_one one_by_one_end _)
            3%nat {| id := 4; iterations := 1 |} 0 _).
  - vm_compute; reflexivity.
  - reflexivity.
Defined.

(** ** The two calls of calculate_sum *)

(** C2, as the code has it: while [main] is in its first call of
    [calculate_sum] all four threads are created, the array worker among
    them, and none is joined; while it is in its second call every thread
    has returned and the array has its final value. *)
Theorem sum_call_sites (argc : Z) (argv : list string) (sched : list task) (s : state) :
  run sample sched (start argc argv) = Some s →
  (∀ i sum, main_at s = Main_sum1 i sum →
     length (pool s) = 4%nat ∧ joined sample (main_at s) = 0 ∧
     ∃ pc, pool s !! 3%nat = Some (Mutex_user {| id := 4; iterations := 1 |} pc)) ∧
  (∀ i sum, main_at s = Main_sum2 i sum →
     (∀ k th, pool s !! k = Some th → is_Some (returned th)) ∧
     array (mem s) = final_array).
Proof.
  intros Hrun.
  pose proof (inv_run _ _ _ _ sample_ok (inv_start _ argc argv sample_ok) Hrun) as Hinv.
  pose proof (inv_pool _ _ Hinv) as Hpinv.
  pose proof Hpinv as (_ & Hlen & Hpool).
  split.
  - intros i sum Hpc. rewrite Hpc in *. simpl in Hlen.
    assert (length (pool s) = 4%nat) as Hl by lia.
    split_and!; [done | done |].
    destruct (lookup_lt_is_Some_2 (pool s) 3) as [th Hth]; [lia |].
    destruct (Hpool _ _ Hth) as [Hslot _]. unfold slot_ok in Hslot. simpl in Hslot.
    destruct Hslot as [pc ->]. eauto.
  - intros i sum Hpc. split.
    + intros k th Hk. apply (inv_join _ _ Hinv k th); [| done].
      rewrite Hpc. simpl. apply lookup_lt_Some in Hk. rewrite Hpc in Hlen.
      simpl in Hlen. lia.
    + apply (joined_array sample); try done; try apply Hinv.
      by rewrite Hpc.
Qed.

Lemma sum_call_sites_witness :
  main_at up_to_second_sum_end = Main_sum2 0 0 ∧
  array (mem up_to_second_sum_end) = final_array.
Proof.
  split; [reflexivity |].
  refine (proj2 (proj2 (sum_call_sites 0 [] up_to_second_sum up_to_second_sum_end _)
                   0 0 _)).
  - vm_compute; reflexivity.
  - reflexivity.
Defined.

(** The first call of [calculate_sum] can be under way while the array
    worker is in the middle of [array[0] *= 2]. *)
Lemma first_sum_during_mutation :
  run sample sum_during_mutation (start 0 []) = Some sum_during_mutation_end ∧
  main_at sum_during_mutation_end = Main_sum1 3 6 ∧
  pool sum_during_mutation_end !! 3%nat =
    Some (Mutex_user {| id := 4; iterations := 1 |} (M_store 0 1)).
Proof. split_and!; vm_compute; reflexivity. Qed.

(** ** The delay of the array worker *)

(** C3, as the code has it: on every interleaving, while the array worker
    is in its [usleep] it holds mutex1, and mutex2 is free. *)
Theorem array_worker_delay (argc : Z) (argv : list string) (sched : list task)
    (s : state) (k : nat) (d : thread_data_t) (pc : mutex_user_pc) :
  run sample sched (start argc argv) = Some s →
  pool s !! k = Some (Mutex_user d pc) → in_delay (Mutex_user d pc) = true →
  pc = M_usleep ∧ mutex1 (mem s) = Some (Thread k) ∧ mutex2 (mem s) = None.
Proof.
  intros Hrun Hk Hdelay.
  pose proof (inv_run _ _ _ _ sample_ok (inv_start _ argc argv sample_ok) Hrun) as Hinv.
  destruct (inv_locks _ _ Hinv) as [[H1A _] [_ H2B]].
  assert (pc = M_usleep) as -> by (by destruct pc).
  split_and!; [done | by apply (H1A k _ Hk) |].
  destruct (mutex2 (mem s)) as [t |] eqn:Hm2; [| done].
  destruct (H2B t eq_refl) as (j & tj & -> & Hj & Hholds).
  destruct tj as [d' pc' | d' pc']; [done |].
  destruct (pool_unique_mutex_user _ _ _ _ _ sample_ok (inv_pool _ _ Hinv) Hk) as [Hkn _].
  destruct (pool_unique_mutex_user _ _ _ _ _ sample_ok (inv_pool _ _ Hinv) Hj) as [Hjn _].
  assert (j = k) as -> by lia. rewrite Hj in Hk. by simplify_eq.
Qed.

Lemma array_worker_delay_witness :
  mutex1 (mem array_worker_sleeps_end) = Some (Thread 3) ∧
  mutex2 (mem array_worker_sleeps_end) = None.
Proof.
  refine (proj2 (array_worker_delay 0 [] array_worker_sleeps array_worker_sleeps_end
                   3 {| id := 4; iterations := 1 |} M_usleep _ _ _)).
  - vm_compute; reflexivity.
  - reflexivity.
  - reflexivity.
Defined.

(** The array worker can be in its [usleep] while it holds mutex1. *)
Lemma delay_while_holding_mutex1 :
  run sample array_worker_sleeps (start 0 []) = Some array_worker_sleeps_end ∧
  pool array_worker_sleeps_end !! 3%nat =
    Some (Mutex_user {| id := 4; iterations := 1 |} M_usleep) ∧
  in_delay (Mutex_user {| id := 4; iterations := 1 |} M_usleep) = true ∧
  mutex1 (mem array_worker_sleeps_end) = Some (Thread 3).
Proof. split_and!; vm_compute; reflexivity. Qed.

(** ** What the program reports *)

(** C5, as the code has it: on every interleaving the lines of [main] are,
    as far as it has come, the start line, an initial sum between 55 and
    70, the final counter 15, the final sum 70 and the completion line;
    the initial sum is 55 when it is printed while the array still has its
    initial values. *)
Theorem sample_reports (argc : Z) (argv : list string) (sched : list task) (s : state) :
  run sample sched (start argc argv) = Some s →
  ∃ x, 55 <= x <= 70 ∧
       (array (mem s) = initial_array → x = 55) ∧
       filter (λ l, main_line l = true) (stdout (mem s)) =
         take (printed (main_at s))
           [Starting; Initial_sum x; Final_counter 15; Final_sum 70; Completed] ∧
       (is_Some (exit_code s) → printed (main_at s) = 5%nat).
Proof.
  intros Hrun.
  pose proof (inv_run _ _ _ _ sample_ok (inv_start _ argc argv sample_ok) Hrun) as Hinv.
  destruct (inv_out _ _ Hinv) as (x & Hx & H55 & Hout).
  exists x. split_and!; [lia | lia | | done |].
  - intros Harr. apply H55.
    destruct (inv_array _ _ Hinv) as [Ha _]. rewrite Ha in Harr.
    apply array_after_initial in Harr; [done |].
    apply (doubled_sum_range sample); [apply sample_ok | apply Hinv].
  - unfold exit_code. destruct (main_at s); by intros [? ?].
Qed.

Lemma sample_reports_witness :
  ∃ x, 55 <= x <= 70 ∧
       filter (λ l, main_line l = true) (stdout (mem one_by_one_end)) =
         [Starting; Initial_sum x; Final_counter 15; Final_sum 70; Completed].
Proof.
  destruct (sample_reports 0 [] one_by_one one_by_one_end) as (x & Hx & _ & Hout & _).
  - vm_compute; reflexivity.
  - exists x. split; [exact Hx | exact Hout].
Defined.

(** An execution that reports an initial sum of 64. *)
Lemma reports_initial_sum_64 :
  run sample torn_sum (start 0 []) = Some torn_sum_end ∧
  exit_code torn_sum_end = Some 0 ∧
  filter (λ l, main_line l = true) (stdout (mem torn_sum_end)) =
    [Starting; Initial_sum 64; Final_counter 15; Final_sum 70; Completed].
Proof. split_and!; vm_compute; reflexivity. Qed.


(** * Further properties *)

(** ** Mutual exclusion and the order of the locks *)

(** X1: The thread between its lock and unlock of mutex1 is the one the mutex
    names, and no other thread is between its own. *)
Theorem mutual_exclusion (cfg : config) (argc : Z) (argv : list string)
    (sched : list task) (s : state) (k : nat) (tk : thread) :
  config_ok cfg → run cfg sched (start argc argv) = Some s →
  pool s !! k = Some tk → holds1 tk = true →
  mutex1 (mem s) = Some (Thread k) ∧
  (∀ j tj, pool s !! j = Some tj → j ≠ k → holds1 tj = false).
Proof.
  intros Hcfg Hrun Hk Hh.
  pose proof (inv_run _ _ _ _ Hcfg (inv_start _ argc argv Hcfg) Hrun) as Hinv.
  destruct (inv_locks _ _ Hinv) as [[HA _] _].
  pose proof (HA k tk Hk Hh) as Hm. split; [done |].
  intros j tj Hj Hne. destruct (holds1 tj) eqn:Hhj; [| done].
  pose proof (HA j tj Hj Hhj). congruence.
Qed.

Lemma mutual_exclusion_witness :
  mutex1 (mem sum_during_mutation_end) = Some (Thread 3).
Proof.
  refine (proj1 (mutual_exclusion sample 0 [] sum_during_mutation
                   sum_during_mutation_end 3
                   (Mutex_user {| id := 4; iterations := 1 |} (M_store 0 1)) _ _ _ _)).
  - apply sample_ok.
  - vm_compute; reflexivity.
  - reflexivity.
  - reflexivity.
Defined.

(** X2: Whoever holds mutex2 is the array worker, in the last slot, and holds
    mutex1 too: mutex2 is only ever taken inside mutex1. *)
Theorem mutex2_inside_mutex1 (cfg : config) (argc : Z) (argv : list string)
    (sched : list task) (s : state) (t : task) :
  config_ok cfg → run cfg sched (start argc argv) = Some s →
  mutex2 (mem s) = Some t →
  mutex1 (mem s) = Some t ∧
  ∃ k d pc, t = Thread k ∧ Z.of_nat k = num_threads cfg - 1 ∧
            pool s !! k = Some (Mutex_user d pc).
Proof.
  intros Hcfg Hrun Hm2.
  pose proof (inv_run _ _ _ _ Hcfg (inv_start _ argc argv Hcfg) Hrun) as Hinv.
  destruct (inv_locks _ _ Hinv) as [[H1A _] [_ H2B]].
  destruct (H2B t Hm2) as (k & tk & -> & Hk & Hh2).
  destruct tk as [d pc | d pc]; [done |].
  split.
  - apply (H1A k _ Hk). by destruct pc.
  - destruct (pool_unique_mutex_user _ _ _ _ _ Hcfg (inv_pool _ _ Hinv) Hk) as [Hkn _].
    by exists k, d, pc.
Qed.

Lemma mutex2_inside_mutex1_witness :
  mutex1 (mem sum_during_mutation_end) = Some (Thread 3).
Proof.
  refine (proj1 (mutex2_inside_mutex1 sample 0 [] sum_during_mutation
                   sum_during_mutation_end (Thread 3) _ _ _)).
  - apply sample_ok.
  - vm_compute; reflexivity.
  - reflexivity.
Defined.

(** ** Where a thread can be blocked *)

(** A thread that has not returned can step whenever it is not at a lock
    of mutex1 that is taken; the lock of mutex2 never blocks. *)
Lemma thread_steps cfg s k th :
  config_ok cfg → inv cfg s → pool s !! k = Some th → returned th = None →
  (waits1 th = true → mutex1 (mem s) = None) →
  ∃ s', step cfg (Thread k) s = Some s'.
Proof.
  intros Hcfg Hinv Hk Hret Hw1.
  destruct Hinv as [Hpinv [[H1A H1B] [H2A H2B]] _ Harr _ _ _].
  pose proof (array_shape _ _ Hcfg Hpinv Harr) as Hshape.
  pose proof Hpinv as (_ & _ & Hpool).
  destruct (thread_enabled (Thread k) th (mem s)) as [[th' g'] Hth]; try done.
  - by apply (Hpool k th Hk).
  - eauto.
  - eauto.
  - intros Hw2. destruct (mutex2 (mem s)) as [t |] eqn:Hm2; [| done].
    destruct (H2B t eq_refl) as (j & tj & -> & Hj' & Hholds).
    destruct th as [d pc | d pc]; [by destruct pc |].
    destruct tj as [d' pc' | d' pc']; [done |].
    destruct (pool_unique_mutex_user _ _ _ _ _ Hcfg Hpinv Hk) as [Hkn _].
    destruct (pool_unique_mutex_user _ _ _ _ _ Hcfg Hpinv Hj') as [Hjn _].
    assert (j = k) as -> by lia.
    rewrite Hj' in Hk. injection Hk as <- <-. by destruct pc'.
  - eexists. unfold step. rewrite Hk. simpl. rewrite Hth. done.
Qed.

(** X3: A created thread that cannot step has returned, or is at its
    [pthread_mutex_lock(&mutex1)] while another thread holds mutex1. *)
Theorem blocked_only_on_mutex1 (cfg : config) (argc : Z) (argv : list string)
    (sched : list task) (s : state) (k : nat) (th : thread) :
  config_ok cfg → run cfg sched (start argc argv) = Some s →
  pool s !! k = Some th → step cfg (Thread k) s = None →
  is_Some (returned th) ∨
  (waits1 th = true ∧
   ∃ j tj, j ≠ k ∧ mutex1 (mem s) = Some (Thread j) ∧
           pool s !! j = Some tj ∧ holds1 tj = true).
Proof.
  intros Hcfg Hrun Hk Hstuck.
  pose proof (inv_run _ _ _ _ Hcfg (inv_start _ argc argv Hcfg) Hrun) as Hinv.
  destruct (returned th) as [r |] eqn:Hret; [left; eauto | right].
  destruct (waits1 th) eqn:Hw.
  - split; [done |].
    destruct (mutex1 (mem s)) as [t |] eqn:Hm1.
    + destruct (inv_locks _ _ Hinv) as [[_ H1B] _].
      destruct (H1B t Hm1) as (j & tj & -> & Hj & Hh).
      exists j, tj. split_and!; try done.
      intros ->. rewrite Hj in Hk. injection Hk as ->.
      destruct th as [d [] | d []]; done.
    + destruct (thread_steps _ _ _ _ Hcfg Hinv Hk Hret) as [s' Hs']; [done |].
      congruence.
  - destruct (thread_steps _ _ _ _ Hcfg Hinv Hk Hret) as [s' Hs']; [congruence |].
    congruence.
Qed.

Lemma blocked_only_on_mutex1_witness :
  is_Some (returned (Worker {| id := 1; iterations := 5 |} (W_lock 0))) ∨
  (waits1 (Worker {| id := 1; iterations := 5 |} (W_lock 0)) = true ∧
   ∃ j tj, j ≠ 0%nat ∧ mutex1 (mem worker_blocked_end) = Some (Thread j) ∧
           pool worker_blocked_end !! j = Some tj ∧ holds1 tj = true).
Proof.
  apply (blocked_only_on_mutex1 sample 0 [] worker_blocked worker_blocked_end).
  - apply sample_ok.
  - vm_compute; reflexivity.
  - reflexivity.
  - reflexivity.
Defined.

(** ** Termination for every configuration *)

Lemma steps_to_exit_start cfg argc argv :
  fuel cfg (start argc argv) = steps_to_exit cfg.
Proof. unfold fuel, steps_to_exit. simpl. lia. Qed.

Lemma all_returned_at_exit cfg s :
  config_ok cfg → inv cfg s → is_Some (exit_code s) →
  Z.of_nat (length (pool s)) = num_threads cfg ∧
  ∀ k th, pool s !! k = Some th → returned th = Some NULL.
Proof.
  intros Hcfg Hinv [c Hc]. unfold exit_code in Hc.
  destruct (main_at s) eqn:Hpc; try done.
  destruct (inv_pool _ _ Hinv) as (_ & Hlen & Hpool). rewrite Hpc in Hlen.
  split; [done |]. intros k th Hk.
  destruct (inv_join _ _ Hinv k th) as [r Hr]; [| done |].
  - rewrite Hpc. simpl in *. apply lookup_lt_Some in Hk. lia.
  - destruct (Hpool k th Hk) as [_ Hok].
    destruct th as [d [] | d []]; simpl in Hr, Hok |- *; try done; f_equal.
    + by destruct Hok.
    + done.
Qed.

Lemma fuel_at_exit cfg s :
  config_ok cfg → inv cfg s → is_Some (exit_code s) → fuel cfg s = 0.
Proof.
  intros Hcfg Hinv Hexit.
  destruct (all_returned_at_exit _ _ Hcfg Hinv Hexit) as [_ Hret].
  destruct Hexit as [c Hc]. unfold exit_code in Hc. unfold fuel.
  destruct (main_at s); try done. simpl.
  rewrite sum_Z_zero; [done |].
  intros k th Hk. specialize (Hret k th Hk).
  destruct th as [d [] | d []]; done.
Qed.

(** X4: For any number of threads and any iteration count: the process never
    deadlocks, no run has more than [steps_to_exit] steps, and the runs
    in which [main] has returned are those of exactly that many steps. *)
Theorem every_run_terminates (cfg : config) (argc : Z) (argv : list string)
    (sched : list task) (s : state) :
  config_ok cfg → run cfg sched (start argc argv) = Some s →
  (exit_code s = None → ∃ t s', step cfg t s = Some s') ∧
  Z.of_nat (length sched) <= steps_to_exit cfg ∧
  (is_Some (exit_code s) ↔ Z.of_nat (length sched) = steps_to_exit cfg).
Proof.
  intros Hcfg Hrun.
  pose proof (inv_start _ argc argv Hcfg) as Hinv0.
  pose proof (inv_run _ _ _ _ Hcfg Hinv0 Hrun) as Hinv.
  pose proof (run_fuel _ _ _ _ Hcfg Hinv0 Hrun) as Hfuel.
  pose proof (fuel_nonneg _ _ Hcfg (inv_pool _ _ Hinv)) as Hpos.
  rewrite steps_to_exit_start in Hfuel.
  split_and!.
  - by apply progress.
  - lia.
  - split.
    + intros Hexit. pose proof (fuel_at_exit _ _ Hcfg Hinv Hexit). lia.
    + intros Hlen. destruct (exit_code s) as [c |] eqn:Hexit; [eauto |].
      destruct (progress _ _ Hcfg Hinv Hexit) as (t & s1 & Hstep).
      pose proof (fuel_step _ _ _ _ Hcfg (inv_pool _ _ Hinv) Hstep).
      pose proof (inv_step _ _ _ _ Hcfg Hinv Hstep) as Hinv1.
      pose proof (fuel_nonneg _ _ Hcfg (inv_pool _ _ Hinv1)). lia.
Qed.

Lemma every_run_terminates_witness :
  Z.of_nat (length one_by_one) <= steps_to_exit sample.
Proof.
  refine (proj1 (proj2 (every_run_terminates sample 0 [] one_by_one one_by_one_end _ _))).
  - apply sample_ok.
  - vm_compute; reflexivity.
Defined.

(** ** The state at exit *)

(** X5: When [main] has returned, it returned 0, both mutexes are free, all
    [num_threads] threads exist and each has returned NULL. *)
Theorem exit_state_clean (cfg : config) (argc : Z) (argv : list string)
    (sched : list task) (s : state) :
  config_ok cfg → run cfg sched (start argc argv) = Some s →
  is_Some (exit_code s) →
  exit_code s = Some 0 ∧
  mutex1 (mem s) = None ∧ mutex2 (mem s) = None ∧
  Z.of_nat (length (pool s)) = num_threads cfg ∧
  (∀ k th, pool s !! k = Some th → returned th = Some NULL).
Proof.
  intros Hcfg Hrun Hexit.
  pose proof (inv_run _ _ _ _ Hcfg (inv_start _ argc argv Hcfg) Hrun) as Hinv.
  destruct (all_returned_at_exit _ _ Hcfg Hinv Hexit) as [Hlen Hret].
  destruct (inv_locks _ _ Hinv) as [[_ H1B] [_ H2B]].
  split_and!; try done.
  - destruct Hexit as [c Hc].
    by rewrite (exit_code_zero _ _ _ (inv_pool _ _ Hinv) Hc) in Hc.
  - destruct (mutex1 (mem s)) as [t |] eqn:Hm; [| done].
    destruct (H1B t eq_refl) as (j & tj & -> & Hj & Hh).
    specialize (Hret j tj Hj). destruct tj as [d [] | d []]; done.
  - destruct (mutex2 (mem s)) as [t |] eqn:Hm; [| done].
    destruct (H2B t eq_refl) as (j & tj & -> & Hj & Hh).
    specialize (Hret j tj Hj). destruct tj as [d [] | d []]; done.
Qed.

Lemma exit_state_clean_witness :
  exit_code one_by_one_end = Some 0 ∧
  mutex1 (mem one_by_one_end) = None ∧ mutex2 (mem one_by_one_end) = None.
Proof.
  destruct (exit_state_clean sample 0 [] one_by_one one_by_one_end)
    as (H0 & H1 & H2 & _).
  - apply sample_ok.
  - vm_compute; reflexivity.
  - by exists 0.
  - split_and!; [exact H0 | exact H1 | exact H2].
Defined.

(** ** calculate_sum beyond the claims *)

Lemma sum_loop_past_end n arr size i sum :
  0 <= i <= Z.of_nat (length arr) → Z.of_nat (length arr) < size → size <= INT_MAX →
  sum_loop n arr size i sum = None.
Proof.
  revert i sum. induction n as [|n IH]; intros i sum Hi Hlen Hmax; simpl.
  - destruct (Z.ltb_spec i size); [done | lia].
  - destruct (Z.ltb_spec i size); [| lia].
    unfold sum_iter.
    destruct (decide (i = Z.of_nat (length arr))) as [-> | Hne].
    + unfold load. destruct (Z.leb_spec 0 (Z.of_nat (length arr))); [| lia].
      rewrite lookup_ge_None_2 by lia. done.
    + destruct (load_in_range arr i) as [a ->]; [lia |]. simpl.
      rewrite (wrap_int_id (i + 1)) by int_lia. apply IH; lia.
Qed.

(** X6: A size larger than the array makes [calculate_sum] read [arr[length]],
    outside the array, whatever the elements are. *)
Theorem calculate_sum_past_the_end (arr : list Z) (size : Z) :
  Z.of_nat (length arr) < size → size <= INT_MAX →
  calculate_sum arr size = None.
Proof. intros Hlen Hmax. apply sum_loop_past_end; lia. Qed.

Lemma calculate_sum_past_the_end_witness : calculate_sum [1; 2; 3] 4 = None.
Proof.
  apply (calculate_sum_past_the_end [1; 2; 3] 4).
  - simpl; lia.
  - unfold INT_MAX; lia.
Defined.

(** X7: The sum of a concatenation is the [int] sum of the sums of its
    parts. *)
Theorem calculate_sum_app (a b : list Z) (x y : Z) :
  Z.of_nat (length (a ++ b)) <= INT_MAX →
  calculate_sum a (Z.of_nat (length a)) = Some x →
  calculate_sum b (Z.of_nat (length b)) = Some y →
  calculate_sum (a ++ b) (Z.of_nat (length (a ++ b))) = Some (wrap_int (x + y)).
Proof.
  intros Hmax Ha Hb. rewrite length_app in Hmax.
  rewrite calculate_sum_take in Ha, Hb by lia.
  rewrite calculate_sum_take by (rewrite length_app; lia).
  rewrite !Nat2Z.id, !firstn_all in *. simplify_eq.
  by rewrite sum_Z_app, wrap_int_add_l, wrap_int_add_r.
Qed.

Lemma calculate_sum_app_witness :
  calculate_sum ([1; 2; 3] ++ [4; 5]) 5 = Some (wrap_int (6 + 9)).
Proof.
  apply (calculate_sum_app [1; 2; 3] [4; 5] 6 9).
  - simpl. unfold INT_MAX. lia.
  - reflexivity.
  - reflexivity.
Defined.

(** ** The counter at every moment *)

Lemma sum_Z_slots_le {A} (f : A → Z) (l : list A) (n c : Z) :
  0 <= n → 0 <= c →
  (∀ k t, l !! k = Some t → 0 <= f t <= if Z.of_nat k <? n then c else 0) →
  0 <= sum_Z (f <$> l) <= c * Z.min (Z.of_nat (length l)) n.
Proof.
  intros Hn Hc. induction l as [|x l IH] using rev_ind; intros Hf.
  - simpl. rewrite Z.min_l by lia. lia.
  - rewrite sum_Z_snoc, length_app.
    pose proof (Hf (length l) x (list_lookup_middle _ _ _ _ eq_refl)) as Hx.
    assert (0 <= sum_Z (f <$> l) <= c * Z.of_nat (length l) `min` n) as IH'.
    { apply IH. intros k t Hk. apply Hf. by apply lookup_app_l_Some. }
    simpl length. destruct (Z.ltb_spec (Z.of_nat (length l)) n).
    + rewrite Z.min_l in IH' by lia. rewrite Z.min_l by lia. nia.
    + rewrite Z.min_r in IH' by lia. rewrite Z.min_r by lia. lia.
Qed.

Lemma incs_range th :
  thread_ok th →
  0 <= incs th <= match th with
                  | Worker d _ => Z.max 0 (iterations d)
                  | Mutex_user _ _ => 0
                  end.
Proof. destruct th as [d [] | d []]; simpl; lia. Qed.

(** When the increments of all workers fit an [int], [counter] is the
    number of increments done so far, without wrap-around. *)
Lemma counter_exact cfg s :
  config_ok cfg → inv cfg s → total cfg <= INT_MAX →
  counter (mem s) = sum_Z (incs <$> pool s) ∧
  0 <= sum_Z (incs <$> pool s) <= total cfg.
Proof.
  intros Hcfg Hinv Htotal.
  pose proof (created_le _ _ Hcfg (inv_pool _ _ Hinv)) as Hle.
  destruct Hcfg as [Hnt HK].
  destruct (inv_pool _ _ Hinv) as (_ & _ & Hpool).
  destruct (inv_counter _ _ Hinv) as [Hc _].
  assert (0 <= sum_Z (incs <$> pool s) <=
          Z.max 0 (worker_iterations cfg) *
            Z.min (Z.of_nat (length (pool s))) (num_threads cfg - 1)) as Hsum.
  { apply sum_Z_slots_le; [lia | lia |].
    intros k t Hk. destruct (Hpool k t Hk) as [Hslot Hok].
    pose proof (incs_range t Hok) as Hr. unfold slot_ok in Hslot.
    destruct (Z.of_nat k <? num_threads cfg - 1);
      destruct Hslot as [pc ->]; simpl in *; lia. }
  assert (0 <= sum_Z (incs <$> pool s) <= total cfg) as Hrange.
  { unfold total. split; [lia |].
    assert (Z.min (Z.of_nat (length (pool s))) (num_threads cfg - 1)
            <= num_threads cfg - 1) by lia.
    nia. }
  split; [| done]. rewrite Hc. apply wrap_int_id. int_lia.
Qed.

Lemma incs_step me th g th' g' :
  thread_ok th → thread_step me th g = Some (th', g') →
  incs th' = incs th ∨
  (incs th' = incs th + 1 ∧ ∃ d i tmp, th = Worker d (W_incr_store i tmp)).
Proof.
  intros Hok H. thread_cases th H; simpl in *;
    try (by left); try (right; split; [lia | eauto]; fail).
  - left. lia.
  - left. destruct Hok as [? ?]. rewrite wrap_int_id by int_lia. done.
Qed.

(** X8: When the increments of all workers fit an [int], [counter] stays
    between 0 and their total, and a step leaves it as it is or, when it is
    the write of a worker's [counter++], adds one. *)
Theorem counter_monotone (cfg : config) (argc : Z) (argv : list string)
    (sched : list task) (s : state) :
  config_ok cfg → total cfg <= INT_MAX →
  run cfg sched (start argc argv) = Some s →
  0 <= counter (mem s) <= total cfg ∧
  (∀ t s', step cfg t s = Some s' →
     counter (mem s') = counter (mem s) ∨
     (counter (mem s') = counter (mem s) + 1 ∧
      ∃ k d i tmp, t = Thread k ∧ pool s !! k = Some (Worker d (W_incr_store i tmp)))).
Proof.
  intros Hcfg Htotal Hrun.
  pose proof (inv_run _ _ _ _ Hcfg (inv_start _ argc argv Hcfg) Hrun) as Hinv.
  destruct (counter_exact _ _ Hcfg Hinv Htotal) as [Hc Hrange].
  split; [lia |]. intros t s' Hstep.
  pose proof (inv_step _ _ _ _ Hcfg Hinv Hstep) as Hinv'.
  destruct (counter_exact _ _ Hcfg Hinv' Htotal) as [Hc' _].
  destruct t as [| k].
  - apply step_Main in Hstep as (pc' & pool' & g' & Hm & ->).
    apply main_frame in Hm as (_ & _ & Hcnt & _). by left.
  - apply step_Thread in Hstep as (th & th' & g' & Hk & Hth & ->).
    destruct (inv_pool _ _ Hinv) as (_ & _ & Hpool).
    destruct (Hpool k th Hk) as [_ Hok].
    simpl in Hc'. rewrite (sum_Z_insert _ _ _ _ _ Hk) in Hc'.
    destruct (incs_step _ _ _ _ _ Hok Hth) as [Heq | [Heq (d & i & tmp & ->)]].
    + left. simpl. lia.
    + right. simpl. split; [lia |]. by exists k, d, i, tmp.
Qed.

Lemma counter_monotone_witness : 0 <= counter (mem torn_sum_end) <= total sample.
Proof.
  refine (proj1 (counter_monotone sample 0 [] torn_sum torn_sum_end _ _ _)).
  - apply sample_ok.
  - unfold total, sample, INT_MAX; simpl; lia.
  - vm_compute; reflexivity.
Defined.

(** ** What a task never touches *)

(** X9: [main] changes no global but the output; a counter worker never
    changes the array or mutex2; the array worker never changes the
    counter; and no step changes the arguments. *)
Theorem step_frame (cfg : config) (t : task) (s s' : state) :
  step cfg t s = Some s' →
  argc s' = argc s ∧ argv s' = argv s ∧
  match t with
  | Main =>
      mutex1 (mem s') = mutex1 (mem s) ∧ mutex2 (mem s') = mutex2 (mem s) ∧
      counter (mem s') = counter (mem s) ∧ array (mem s') = array (mem s)
  | Thread k =>
      match pool s !! k with
      | Some (Worker _ _) =>
          array (mem s') = array (mem s) ∧ mutex2 (mem s') = mutex2 (mem s)
      | Some (Mutex_user _ _) => counter (mem s') = counter (mem s)
      | None => False
      end
  end.
Proof.
  intros Hstep. destruct t as [| k].
  - apply step_Main in Hstep as (pc' & pool' & g' & Hm & ->).
    apply main_frame in Hm as (? & ? & ? & ? & _). done.
  - apply step_Thread in Hstep as (th & th' & g' & Hk & Hth & ->).
    rewrite Hk. split_and!; [done | done |].
    thread_cases th Hth; simpl; done.
Qed.

Lemma step_frame_witness :
  counter (mem (default (start 0 []) (step sample Main (start 0 [])))) = 0.
Proof.
  refine (proj1 (proj2 (proj2 (proj2 (proj2
            (step_frame sample Main (start 0 []) _ _)))))).
  reflexivity.
Defined.

(** ** The lines of the counter workers *)

Lemma worker_pairs_snoc out l :
  worker_pairs (out ++ [l]) = worker_pairs out ++ worker_pairs [l].
Proof. unfold worker_pairs. by rewrite omap_app. Qed.

Lemma lines_printed_nonneg th : thread_ok th → 0 <= lines_printed th.
Proof. destruct th as [d [] | d []]; simpl; lia. Qed.

Lemma sum_Z_nonneg {A} (f : A → Z) (l : list A) :
  (∀ k t, l !! k = Some t → 0 <= f t) → 0 <= sum_Z (f <$> l).
Proof.
  induction l as [|a l IH]; intros Hf; [done |]. rewrite sum_Z_cons.
  pose proof (Hf 0%nat a eq_refl).
  assert (0 <= sum_Z (f <$> l)); [| lia].
  apply IH. intros k t Hk. apply (Hf (S k) t Hk).
Qed.

Lemma sum_Z_plus {A} (f g : A → Z) (l : list A) :
  sum_Z ((λ x, f x + g x) <$> l) = sum_Z (f <$> l) + sum_Z (g <$> l).
Proof. induction l as [|a l IH]; [done |]. rewrite !sum_Z_cons, IH. lia. Qed.

Lemma sum_Z_ext {A} (f g : A → Z) (l : list A) :
  (∀ x, f x = g x) → sum_Z (f <$> l) = sum_Z (g <$> l).
Proof.
  intros Hfg. induction l as [|a l IH]; [done |]. by rewrite !sum_Z_cons, IH, Hfg.
Qed.

(** A worker that has incremented the counter and not yet printed holds
    mutex1. *)
Lemma unprinted_holds1 th :
  thread_ok th → incs th - lines_printed th ≠ 0 →
  holds1 th = true ∧ incs th - lines_printed th = 1.
Proof. destruct th as [d [] | d []]; simpl; intros; try lia; split; (done || lia). Qed.

Lemma thread_step_local me th g th' g' :
  thread_step me th g = Some (th', g') →
  (∀ v, pending_local th = Some v → v = counter g) →
  (∀ v, pending_local th' = Some v → v = counter g').
Proof.
  intros H Hp. thread_cases th H; simpl in *; try done.
  by intros ? [= <-].
Qed.

Lemma thread_step_counter_changes me th g th' g' :
  thread_step me th g = Some (th', g') →
  counter g' = counter g ∨ holds1 th = true.
Proof.
  intros H. thread_cases th H; simpl;
    first [right; reflexivity | left; reflexivity].
Qed.

Lemma thread_step_pairs me th g th' g' :
  thread_ok th → thread_step me th g = Some (th', g') →
  (lines_printed th' = lines_printed th ∧
   worker_pairs (stdout g') = worker_pairs (stdout g)) ∨
  (lines_printed th' = lines_printed th + 1 ∧ holds1 th = true ∧
   incs th - lines_printed th = 1 ∧
   ∃ v, pending_local th = Some v ∧
        worker_pairs (stdout g') = worker_pairs (stdout g) ++ [(counter g, v)]).
Proof.
  intros Hok H. thread_cases th H; simpl in *;
    try (left; split; [lia | done]; fail);
    try (left; split; [done |]; by rewrite worker_pairs_snoc, app_nil_r).
  - right. split_and!; [lia | done | lia |].
    eexists. split; [done |]. by rewrite worker_pairs_snoc.
  - left. destruct Hok as [? ?]. rewrite wrap_int_id by int_lia. done.
Qed.

Lemma lines_inv_start argc argv : lines_inv (start argc argv).
Proof. split; [done | intros k th v Hk; by simpl in Hk]. Qed.

Lemma lines_inv_step cfg t s s' :
  config_ok cfg → total cfg <= INT_MAX → inv cfg s → lines_inv s →
  step cfg t s = Some s' → lines_inv s'.
Proof.
  intros Hcfg Htotal Hinv [Hout Hloc] Hstep.
  destruct (counter_exact _ _ Hcfg Hinv Htotal) as [Hc _].
  destruct (inv_pool _ _ Hinv) as (_ & _ & Hpool).
  destruct (inv_locks _ _ Hinv) as [[H1A _] _].
  destruct t as [| k].
  - apply step_Main in Hstep as (pc' & pool' & g' & Hm & ->).
    pose proof (main_frame _ _ _ _ _ _ _ _ _ Hm) as (_ & _ & Hcnt & _ & Hcreate).
    assert (worker_pairs (stdout g') = worker_pairs (stdout (mem s))) as Hsame.
    { clear -Hm. unfold main, call_calculate_sum, sum_iter in Hm.
      destruct (main_at s); simpl in Hm; repeat case_match; simplify_option_eq;
        try done; by rewrite worker_pairs_snoc, app_nil_r. }
    unfold lines_inv. simpl. rewrite Hsame, Hcnt.
    destruct Hcreate as [-> | (th & Hentry & ->)]; [done |].
    split.
    + unfold pthread_create. rewrite sum_Z_snoc, Hout.
      destruct th as [d [] | d []]; try done; simpl in *.
      * case_match; try done. by rewrite Z.add_0_r.
      * by rewrite Z.add_0_r.
    + intros j tj v Hj Hv.
      apply lookup_create_cases in Hj as [Hj | [-> ->]]; [eauto |].
      destruct th as [d [] | d []]; done.
  - apply step_Thread in Hstep as (th & th' & g' & Hk & Hth & ->).
    destruct (Hpool k th Hk) as [_ Hok]. split; simpl.
    + rewrite (sum_Z_insert _ _ _ _ _ Hk).
      destruct (thread_step_pairs _ _ _ _ _ Hok Hth)
        as [[Hl Hp] | (Hl & Hh & Hun & v & Hv & Hp)].
      * rewrite Hp, Hout. do 2 f_equal. lia.
      * assert (0 <= sum_Z (lines_printed <$> pool s)) as Hnn.
        { apply sum_Z_nonneg. intros j tj Hj. apply lines_printed_nonneg.
          apply (Hpool j tj Hj). }
        assert (sum_Z ((λ x, incs x - lines_printed x) <$> pool s) = 1) as Hone.
        { rewrite (sum_Z_single _ _ k th); [done | | done].
          intros j tj Hne Hj.
          destruct (decide (incs tj - lines_printed tj = 0)) as [? | Hnz]; [done |].
          destruct (unprinted_holds1 tj (proj2 (Hpool j tj Hj)) Hnz) as [Hhj _].
          pose proof (H1A j tj Hj Hhj). pose proof (H1A k th Hk Hh). congruence. }
        assert (counter (mem s) = sum_Z (lines_printed <$> pool s) + 1) as Hcount.
        { rewrite Hc, <- Hone, <- sum_Z_plus. apply sum_Z_ext. intros x. lia. }
        rewrite Hp, Hout, (Hloc k th v Hk Hv), Hcount, Hl.
        replace (sum_Z (lines_printed <$> pool s) - lines_printed th
                 + (lines_printed th + 1))
          with (sum_Z (lines_printed <$> pool s) + 1) by lia.
        rewrite (seqZ_app 1 _ 1) by lia. rewrite fmap_app. f_equal.
        rewrite seqZ_cons, seqZ_nil by lia. simpl. do 2 f_equal; lia.
    + intros j tj v Hj Hv.
      apply lookup_insert_cases in Hj as [(-> & -> & _) | [Hne Hj]].
      * eapply thread_step_local; [exact Hth | | exact Hv].
        intros v'. apply (Hloc k th).  done.
      * destruct (thread_step_counter_changes _ _ _ _ _ Hth) as [-> | Hh]; [eauto |].
        assert (holds1 tj = true) as Hhj by (destruct tj as [d [] | d []]; done).
        pose proof (H1A j tj Hj Hhj). pose proof (H1A k th Hk Hh). congruence.
Qed.

Lemma lines_inv_run cfg sched s s' :
  config_ok cfg → total cfg <= INT_MAX → inv cfg s → lines_inv s →
  run cfg sched s = Some s' → lines_inv s'.
Proof.
  intros Hcfg Htotal. revert s.
  induction sched as [|t sched IH]; intros s Hinv Hl Hrun.
  - by simplify_eq/=.
  - simpl in Hrun. destruct (step cfg t s) as [s1 |] eqn:Hstep; [| done].
    simpl in Hrun. eauto using inv_step, lines_inv_step.
Qed.

(** X10: When the increments of all workers fit an [int]: the worker lines of
    the output, in the order printed, show counter = local = 1, 2, ..., m,
    whatever the interleaving; m is at most [counter], and it is the total
    of all workers once [main] has returned. *)
Theorem worker_lines_count_up (cfg : config) (argc : Z) (argv : list string)
    (sched : list task) (s : state) :
  config_ok cfg → total cfg <= INT_MAX →
  run cfg sched (start argc argv) = Some s →
  ∃ m, 0 <= m <= counter (mem s) ∧
       worker_pairs (stdout (mem s)) = (λ c, (c, c)) <$> seqZ 1 m ∧
       (is_Some (exit_code s) → m = total cfg).
Proof.
  intros Hcfg Htotal Hrun.
  pose proof (inv_run _ _ _ _ Hcfg (inv_start _ argc argv Hcfg) Hrun) as Hinv.
  pose proof (lines_inv_run _ _ _ _ Hcfg Htotal (inv_start _ argc argv Hcfg)
                (lines_inv_start argc argv) Hrun) as [Hout _].
  destruct (counter_exact _ _ Hcfg Hinv Htotal) as [Hc _].
  destruct (inv_pool _ _ Hinv) as (_ & _ & Hpool).
  exists (sum_Z (lines_printed <$> pool s)). split_and!; [| | done |].
  - apply sum_Z_nonneg. intros j tj Hj. apply lines_printed_nonneg, (Hpool j tj Hj).
  - rewrite Hc.
    assert (0 <= sum_Z ((λ x, incs x - lines_printed x) <$> pool s)) as Hnn.
    { apply sum_Z_nonneg. intros j tj Hj. destruct (Hpool j tj Hj) as [_ Hok].
      destruct tj as [d [] | d []]; simpl in *; lia. }
    assert (sum_Z (incs <$> pool s) =
            sum_Z (lines_printed <$> pool s)
            + sum_Z ((λ x, incs x - lines_printed x) <$> pool s)) as ->; [| lia].
    rewrite <- sum_Z_plus. apply sum_Z_ext. intros x. lia.
  - intros Hexit.
    destruct (all_returned_at_exit _ _ Hcfg Hinv Hexit) as [Hlen Hret].
    destruct Hcfg as [Hnt HK]. unfold total.
    rewrite (sum_Z_slots _ _ (num_threads cfg - 1) (Z.max 0 (worker_iterations cfg)));
      [lia | lia |].
    intros k t Hk. destruct (Hpool k t Hk) as [Hslot _]. unfold slot_ok in Hslot.
    specialize (Hret k t Hk).
    destruct (Z.of_nat k <? num_threads cfg - 1); destruct Hslot as [pc ->];
      by destruct pc.
Qed.

Lemma worker_lines_count_up_witness :
  ∃ m, 0 <= m <= counter (mem torn_sum_end) ∧
       worker_pairs (stdout (mem torn_sum_end)) = (λ c, (c, c)) <$> seqZ 1 m ∧
       (is_Some (exit_code torn_sum_end) → m = total sample).
Proof.
  apply (worker_lines_count_up sample 0 [] torn_sum torn_sum_end).
  - apply sample_ok.
  - unfold total, sample, INT_MAX; simpl; lia.
  - vm_compute; reflexivity.
Defined.

(** ** A thread running alone *)

Global Arguments store : simpl never.

Lemma store_in_range arr i v :
  0 <= i < Z.of_nat (length arr) → store arr i v = Some (<[Z.to_nat i := v]> arr).
Proof.
  intros Hi. unfold store.
  destruct (Z.leb_spec 0 i); [| lia].
  destruct (Z.ltb_spec i (Z.of_nat (length arr))); [done | lia].
Qed.

Lemma thread_run_add n m me th g :
  thread_run (n + m) me th g =
    match thread_run n me th g with
    | Some (th', g') => thread_run m me th' g'
    | None => None
    end.
Proof.
  revert th g. induction n as [|n IH]; intros th g; [done |].
  simpl. destruct (thread_step me th g) as [[th' g'] |]; [apply IH | done].
Qed.

(** One iteration of the loop of [worker_thread]. *)
Lemma worker_iteration me d i g :
  0 <= i < iterations d → iterations d <= INT_MAX → mutex1 g = None →
  thread_run 9 me (Worker d (W_test i)) g =
    Some (Worker d (W_test (i + 1)),
          {| mutex1 := None; mutex2 := mutex2 g;
             counter := wrap_int (counter g + 1); array := array g;
             stdout := stdout g ++ [Worker_line (id d) (wrap_int (counter g + 1))
                                      (wrap_int (counter g + 1))] |}).
Proof.
  intros Hi Hmax Hm. destruct g as [m1 m2 c a out]. simpl in Hm. subst m1.
  simpl. destruct (Z.ltb_spec i (iterations d)); [| lia]. simpl.
  rewrite decide_True by done. simpl.
  rewrite (wrap_int_id (i + 1)) by int_lia. done.
Qed.

Lemma worker_loop me d (m : nat) i g :
  0 <= i → i + Z.of_nat m = iterations d → iterations d <= INT_MAX →
  mutex1 g = None → in_int (counter g) →
  thread_run (9 * m + 1) me (Worker d (W_test i)) g =
    Some (Worker d (W_return NULL),
          {| mutex1 := None; mutex2 := mutex2 g;
             counter := wrap_int (counter g + Z.of_nat m); array := array g;
             stdout := stdout g ++ worker_output (id d) (counter g) m |}).
Proof.
  revert i g. induction m as [|m IH]; intros i g Hi Him Hmax Hm Hc.
  - destruct g as [m1 m2 c a out]. simpl in *. subst m1.
    destruct (Z.ltb_spec i (iterations d)); [lia |].
    rewrite Z.add_0_r, wrap_int_id, app_nil_r by done. done.
  - replace (9 * S m + 1)%nat with (9 + (9 * m + 1))%nat by lia.
    rewrite thread_run_add, worker_iteration; [| lia | lia | done].
    rewrite IH; [| lia | lia | done | done | apply wrap_int_range].
    simpl. rewrite wrap_int_add_l, <- app_assoc. simpl.
    do 3 f_equal. f_equal. lia.
Qed.

(** X11: A counter worker that runs alone from its entry, with mutex1 free:
    after 9 steps for each iteration and one more it has returned NULL,
    [counter] is larger by [iterations] (in [int] arithmetic), mutex1 is
    free again, one line is printed for each iteration, and the array and
    mutex2 are as they were. *)
Theorem worker_thread_alone (me : task) (d : thread_data_t) (g : globals) :
  0 <= iterations d <= INT_MAX → mutex1 g = None → in_int (counter g) →
  thread_run (9 * Z.to_nat (iterations d) + 1) me (Worker d (W_test 0)) g =
    Some (Worker d (W_return NULL),
          {| mutex1 := None; mutex2 := mutex2 g;
             counter := wrap_int (counter g + iterations d); array := array g;
             stdout := stdout g
                         ++ worker_output (id d) (counter g) (Z.to_nat (iterations d)) |}).
Proof.
  intros HK Hm Hc. rewrite (worker_loop me d _ 0 g); [| lia | lia | lia | done | done].
  by rewrite Z2Nat.id by lia.
Qed.

Lemma worker_thread_alone_witness :
  thread_run 19 (Thread 0) (Worker {| id := 1; iterations := 2 |} (W_test 0))
    initial_globals =
    Some (Worker {| id := 1; iterations := 2 |} (W_return NULL),
          {| mutex1 := None; mutex2 := None; counter := wrap_int (0 + 2);
             array := initial_array;
             stdout := [] ++ worker_output 1 0 2 |}).
Proof.
  apply (worker_thread_alone (Thread 0) {| id := 1; iterations := 2 |} initial_globals).
  - simpl. unfold INT_MAX. lia.
  - reflexivity.
  - simpl. unfold in_int, INT_MIN, INT_MAX. lia.
Defined.

Ltac run_norm :=
  simpl; unfold set_mutex1, set_mutex2, set_array, set_counter, printf; simpl.

Ltac run_alone :=
  run_norm;
  repeat (first [ rewrite decide_True by done
                | rewrite store_in_range by (simpl; lia)
                | match goal with
                  | |- context [wrap_int (?i + 1)] =>
                      rewrite (wrap_int_id (i + 1)) by int_lia
                  end ];
          run_norm).

(** X12: The array worker that runs alone from its entry, with both mutexes
    free, on any array of at least five elements: after 23 steps it has
    returned NULL, the first five elements are doubled (in [int]
    arithmetic) and the others are as they were, its two lines are
    printed, both mutexes are free and the counter is as it was. *)
Theorem mutex_user_thread_alone (me : task) (d : thread_data_t) (g : globals) :
  mutex1 g = None → mutex2 g = None →
  (5 <= length (array g))%nat →
  thread_run 23 me (Mutex_user d M_lock1) g =
    Some (Mutex_user d (M_return NULL),
          {| mutex1 := None; mutex2 := None; counter := counter g;
             array := ((λ x, wrap_int (x * 2)) <$> take 5 (array g))
                        ++ drop 5 (array g);
             stdout := stdout g ++ [Acquired_mutex1 (id d); Acquired_mutex2 (id d)] |}).
Proof.
  intros Hm1 Hm2 Hlen. destruct g as [m1 m2 c a out]. simpl in *. subst m1 m2.
  destruct a as [|a0 [|a1 [|a2 [|a3 [|a4 a]]]]]; simpl in Hlen; try lia.
  run_alone. by rewrite <- app_assoc.
Qed.

Lemma mutex_user_thread_alone_witness :
  thread_run 23 (Thread 3) (Mutex_user {| id := 4; iterations := 1 |} M_lock1)
    initial_globals =
    Some (Mutex_user {| id := 4; iterations := 1 |} (M_return NULL),
          {| mutex1 := None; mutex2 := None; counter := 0;
             array := ((λ x, wrap_int (x * 2)) <$> take 5 initial_array)
                        ++ drop 5 initial_array;
             stdout := [] ++ [Acquired_mutex1 4; Acquired_mutex2 4] |}).
Proof.
  apply (mutex_user_thread_alone (Thread 3) {| id := 4; iterations := 1 |}
           initial_globals).
  - reflexivity.
  - reflexivity.
  - simpl. lia.
Defined.

(** ** The lines of the threads *)

(** What one step of a thread adds to the output. *)
Lemma thread_step_line me th g th' g' :
  thread_step me th g = Some (th', g') →
  (stdout g' = stdout g ∧ acquired_printed th' = acquired_printed th) ∨
  (∃ l, stdout g' = stdout g ++ [l] ∧
        match th with
        | Worker d _ =>
            (∃ c v, l = Worker_line (id d) c v) ∧ acquired_printed th' = 0
        | Mutex_user d _ =>
            (l = Acquired_mutex1 (id d) ∧ acquired_printed th = 0 ∧
             acquired_printed th' = 1) ∨
            (l = Acquired_mutex2 (id d) ∧ acquired_printed th = 1 ∧
             acquired_printed th' = 2)
        end).
Proof.
  intros H. thread_cases th H; simpl; try (by left).
  - right. eexists. split; [done |]. eauto.
  - right. eexists. split; [done |]. by left.
  - right. eexists. split; [done |]. by right.
Qed.

Lemma main_step_line cfg ac av pc pool g pc' pool' g' :
  main cfg ac av pc pool g = Some (pc', pool', g') →
  stdout g' = stdout g ∨ ∃ l, stdout g' = stdout g ++ [l] ∧ main_line l = true.
Proof.
  intros H. main_cases pc H; try (by left); right; eexists; by split.
Qed.

Lemma main_line_not_acquired l : main_line l = true → acquired_line l = false.
Proof. by destruct l. Qed.

Lemma slot_id cfg k th :
  config_ok cfg → slot_ok cfg k th →
  match th with
  | Worker d _ => 1 <= id d <= num_threads cfg - 1
  | Mutex_user d _ => id d = num_threads cfg
  end.
Proof.
  intros [Hnt _]. unfold slot_ok.
  destruct (Z.ltb_spec (Z.of_nat k) (num_threads cfg - 1));
    intros [pc ->]; simpl; [lia | done].
Qed.

(** X14: Every line of a thread carries the id [main] gave that thread: the
    worker lines an id from 1 to [num_threads - 1], the two acquisition
    lines the id [num_threads]. *)
Theorem thread_lines_name_their_thread (cfg : config) (argc : Z) (argv : list string)
    (sched : list task) (s : state) :
  config_ok cfg → run cfg sched (start argc argv) = Some s →
  Forall (line_id_ok cfg) (stdout (mem s)).
Proof.
  intros Hcfg.
  assert (∀ sched s0 s, inv cfg s0 → Forall (line_id_ok cfg) (stdout (mem s0)) →
            run cfg sched s0 = Some s → Forall (line_id_ok cfg) (stdout (mem s)))
    as Hind.
  { clear sched s. intros sched. induction sched as [|t sched IH];
      intros s0 s Hinv Hall Hrun; [by simplify_eq/= |].
    simpl in Hrun. destruct (step cfg t s0) as [s1 |] eqn:Hstep; [| done].
    simpl in Hrun. apply (IH s1 s); [by eapply inv_step | | done].
    destruct t as [| k].
    - apply step_Main in Hstep as (pc' & pool' & g' & Hm & ->). simpl.
      destruct (main_step_line _ _ _ _ _ _ _ _ _ Hm) as [-> | (l & -> & Hl)]; [done |].
      apply Forall_app. split; [done |]. apply Forall_singleton. by destruct l.
    - apply step_Thread in Hstep as (th & th' & g' & Hk & Hth & ->). simpl.
      destruct (thread_step_line _ _ _ _ _ Hth) as [[-> _] | (l & -> & Hl)]; [done |].
      apply Forall_app. split; [done |]. apply Forall_singleton.
      destruct (inv_pool _ _ Hinv) as (_ & _ & Hpool).
      destruct (Hpool k th Hk) as [Hslot _].
      pose proof (slot_id _ _ _ Hcfg Hslot) as Hid.
      destruct th as [d pc | d pc].
      + destruct Hl as [(c & v & ->) _]. done.
      + destruct Hl as [(-> & _) | (-> & _)]; done. }
  intros Hrun. apply (Hind sched (start argc argv) s); [by apply inv_start | | done].
  apply Forall_nil_2.
Qed.

Lemma thread_lines_name_their_thread_witness :
  Forall (line_id_ok sample) (stdout (mem torn_sum_end)).
Proof.
  apply (thread_lines_name_their_thread sample 0 [] torn_sum torn_sum_end).
  - apply sample_ok.
  - vm_compute; reflexivity.
Defined.

Lemma acquired_inv_step cfg t s s' :
  config_ok cfg → inv cfg s → acquired_inv cfg s →
  step cfg t s = Some s' → acquired_inv cfg s'.
Proof.
  intros Hcfg Hinv Hacq Hstep. unfold acquired_inv in *.
  destruct (inv_pool _ _ Hinv) as (_ & _ & Hpool).
  destruct t as [| k].
  - apply step_Main in Hstep as (pc' & pool' & g' & Hm & ->). simpl.
    assert (filter (λ l, acquired_line l = true) (stdout g') =
            filter (λ l, acquired_line l = true) (stdout (mem s))) as ->.
    { destruct (main_step_line _ _ _ _ _ _ _ _ _ Hm) as [-> | (l & -> & Hl)]; [done |].
      rewrite filter_app, filter_cons_False, filter_nil, app_nil_r; [done |].
      rewrite (main_line_not_acquired l Hl). done. }
    apply main_frame in Hm as (_ & _ & _ & _ & Hcreate).
    destruct Hcreate as [-> | (th & Hentry & ->)]; [done |].
    unfold pthread_create. rewrite sum_Z_snoc.
    assert (acquired_printed th = 0) as -> by (destruct th as [d [] | d []]; done).
    by rewrite Z.add_0_r.
  - apply step_Thread in Hstep as (th & th' & g' & Hk & Hth & ->). simpl.
    rewrite (sum_Z_insert _ _ _ _ _ Hk).
    destruct (thread_step_line _ _ _ _ _ Hth) as [[-> Heq] | (l & -> & Hl)].
    + rewrite Hacq. do 2 f_equal. lia.
    + destruct (Hpool k th Hk) as [Hslot _].
      pose proof (slot_id _ _ _ Hcfg Hslot) as Hid.
      destruct th as [d pc | d pc].
      * destruct Hl as [(c & v & ->) Hz].
        rewrite filter_app, filter_cons_False, filter_nil, app_nil_r by done.
        rewrite Hacq. do 2 f_equal.
        assert (acquired_printed (Worker d pc) = 0) by done. lia.
      * destruct (pool_unique_mutex_user _ _ _ _ _ Hcfg (inv_pool _ _ Hinv) Hk)
          as [_ Hothers].
        assert (sum_Z (acquired_printed <$> pool s)
                = acquired_printed (Mutex_user d pc)) as Hsum.
        { apply (sum_Z_single _ _ k); [| done].
          intros j t Hne Hj. by destruct (Hothers j t Hne Hj) as (d' & pc' & ->). }
        rewrite Hsum in *.
        rewrite filter_app, Hacq.
        destruct Hl as [(-> & H0 & H1) | (-> & H0 & H1)]; rewrite H0, H1, Hid;
          rewrite filter_cons_True by done; done.
Qed.

(** A sum over the pool of a quantity that only the array worker has. *)
Lemma sum_Z_array_worker cfg s (f : thread → Z) :
  config_ok cfg → pool_inv cfg s → (∀ d pc, f (Worker d pc) = 0) →
  sum_Z (f <$> pool s) = 0 ∨
  ∃ k d pc, pool s !! k = Some (Mutex_user d pc) ∧
            sum_Z (f <$> pool s) = f (Mutex_user d pc).
Proof.
  intros Hcfg Hinv Hf.
  assert ((∀ j t, pool s !! j = Some t → f t = 0) ∨
          (∃ k d pc, pool s !! k = Some (Mutex_user d pc))) as [Hall | (k & d & pc & Hk)].
  { generalize (pool s). intros l. induction l as [|a l [IH | (k & d & pc & Hk)]].
    - left. intros j t Hj. done.
    - destruct a as [d pc | d pc].
      + left. intros [|j] t Hj; simplify_eq/=; eauto.
      + right. by exists 0%nat, d, pc.
    - right. by exists (S k), d, pc. }
  - left. by apply sum_Z_zero.
  - right. exists k, d, pc. split; [done |].
    destruct (pool_unique_mutex_user _ _ _ _ _ Hcfg Hinv Hk) as [_ Hothers].
    apply (sum_Z_single _ _ k); [| done].
    intros j t Hne Hj. destruct (Hothers j t Hne Hj) as (d' & pc' & ->). apply Hf.
Qed.

(** X15: The acquisition lines of the output are, as far as the array worker
    has come, the one for mutex1 followed by the one for mutex2, each once
    and with the id [num_threads]; both are there once [main] has
    returned. *)
Theorem acquisition_lines_in_order (cfg : config) (argc : Z) (argv : list string)
    (sched : list task) (s : state) :
  config_ok cfg → run cfg sched (start argc argv) = Some s →
  ∃ n, (n <= 2)%nat ∧
       filter (λ l, acquired_line l = true) (stdout (mem s)) =
         take n [Acquired_mutex1 (num_threads cfg); Acquired_mutex2 (num_threads cfg)] ∧
       (is_Some (exit_code s) → n = 2%nat).
Proof.
  intros Hcfg.
  assert (∀ sched s0 s, inv cfg s0 → acquired_inv cfg s0 →
            run cfg sched s0 = Some s → acquired_inv cfg s) as Hind.
  { clear sched s. intros sched. induction sched as [|t sched IH];
      intros s0 s Hinv Hacq Hrun; [by simplify_eq/= |].
    simpl in Hrun. destruct (step cfg t s0) as [s1 |] eqn:Hstep; [| done].
    simpl in Hrun. eauto using inv_step, acquired_inv_step. }
  intros Hrun.
  pose proof (inv_run _ _ _ _ Hcfg (inv_start _ argc argv Hcfg) Hrun) as Hinv.
  pose proof (Hind sched _ s (inv_start _ argc argv Hcfg) eq_refl Hrun) as Hacq.
  unfold acquired_inv in Hacq.
  destruct (sum_Z_array_worker cfg s acquired_printed Hcfg (inv_pool _ _ Hinv))
    as [Hz | (k & d & pc & Hk & Hsum)]; [done | |].
  - exists 0%nat. rewrite Hz in Hacq. split_and!; [lia | done |].
    intros Hexit. exfalso.
    destruct (all_returned_at_exit _ _ Hcfg Hinv Hexit) as [Hlen Hret].
    destruct Hcfg as [Hnt HK].
    destruct (lookup_lt_is_Some_2 (pool s) (Z.to_nat (num_threads cfg - 1)))
      as [th Hth]; [lia |].
    destruct (inv_pool _ _ Hinv) as (_ & _ & Hpool).
    destruct (Hpool _ _ Hth) as [Hslot _]. unfold slot_ok in Hslot.
    destruct (Z.ltb_spec (Z.of_nat (Z.to_nat (num_threads cfg - 1)))
                (num_threads cfg - 1)); [lia |].
    destruct Hslot as [pc ->]. specialize (Hret _ _ Hth).
    destruct (pool_unique_mutex_user _ _ _ _ _ (conj Hnt HK) (inv_pool _ _ Hinv) Hth)
      as [_ Hothers].
    assert (sum_Z (acquired_printed <$> pool s) =
            acquired_printed
              (Mutex_user {| id := num_threads cfg; iterations := 1 |} pc)) as Hsum.
    { eapply sum_Z_single; [| exact Hth].
      intros j t Hne Hj. by destruct (Hothers j t Hne Hj) as (d' & pc' & ->). }
    rewrite Hsum in Hz. by destruct pc.
  - exists (Z.to_nat (acquired_printed (Mutex_user d pc))).
    rewrite Hsum in Hacq. split_and!; [destruct pc; simpl; lia | done |].
    intros Hexit.
    destruct (all_returned_at_exit _ _ Hcfg Hinv Hexit) as [_ Hret].
    specialize (Hret _ _ Hk). by destruct pc.
Qed.

Lemma acquisition_lines_in_order_witness :
  ∃ n, (n <= 2)%nat ∧
       filter (λ l, acquired_line l = true) (stdout (mem torn_sum_end)) =
         take n [Acquired_mutex1 4; Acquired_mutex2 4] ∧
       (is_Some (exit_code torn_sum_end) → n = 2%nat).
Proof.
  apply (acquisition_lines_in_order sample 0 [] torn_sum torn_sum_end).
  - apply sample_ok.
  - vm_compute; reflexivity.
Defined.

(** ** The first line and the final block *)

Lemma output_frame_step cfg t s s' :
  config_ok cfg → inv cfg s → output_frame_inv cfg s →
  step cfg t s = Some s' → output_frame_inv cfg s'.
Proof.
  intros Hcfg Hinv Hout Hstep. destruct t as [| k].
  - pose proof (joined_counter _ _ Hcfg (inv_pool _ _ Hinv) (inv_counter _ _ Hinv)
                  (inv_join _ _ Hinv)) as Hfinal.
    pose proof (inv_sums _ _ Hinv) as Hs.
    apply step_Main in Hstep as (pc' & pool' & g' & Hm & ->).
    unfold output_frame_inv, sums_inv in *. simpl.
    destruct (main_at s) eqn:Hpc; unfold main, call_calculate_sum, sum_iter in Hm;
      simpl in *; repeat case_match; simplify_option_eq;
      try done;
      try (destruct Hout as [mid Hmid]; rewrite Hmid; eexists;
           try rewrite Hfinal by done;
           first [ reflexivity
                 | rewrite app_comm_cons; reflexivity
                 | rewrite app_comm_cons, <- app_assoc; reflexivity ]).
    rewrite Hout. by exists [].
  - apply step_Thread in Hstep as (th & th' & g' & Hk & Hth & ->).
    assert (joined cfg (main_at s) = num_threads cfg → False) as Hnotjoined.
    { intros Hall.
      destruct (inv_join _ _ Hinv k th) as [r Hr]; [| done |].
      - rewrite Hall. pose proof (created_le _ _ Hcfg (inv_pool _ _ Hinv)).
        apply lookup_lt_Some in Hk. lia.
      - rewrite returned_no_step in Hth; [done | eauto]. }
    destruct (inv_pool _ _ Hinv) as (_ & Hlen & _).
    unfold output_frame_inv in *. simpl.
    destruct (main_at s) eqn:Hpc;
      try (exfalso; apply Hnotjoined; reflexivity);
      try (destruct Hout as [mid Hmid];
           destruct (thread_step_line _ _ _ _ _ Hth) as [[-> _] | (l & -> & _)];
           [by exists mid | exists (mid ++ [l]); by rewrite Hmid]).
    apply lookup_lt_Some in Hk. simpl in Hlen. lia.
Qed.

(** X16: The output of a run begins with the start line. When [main] has
    returned it ends with the final counter, the final sum 70 and the
    completion line, with nothing printed after them; between the start
    line and that block are the lines of the threads and one line of
    [main], the initial sum, whose value is between 55 and 70. *)
Theorem output_first_and_last (cfg : config) (argc : Z) (argv : list string)
    (sched : list task) (s : state) :
  config_ok cfg → run cfg sched (start argc argv) = Some s →
  (stdout (mem s) = [] ∨ ∃ rest, stdout (mem s) = Starting :: rest) ∧
  (is_Some (exit_code s) →
   ∃ mid x, 55 <= x <= 70 ∧
            stdout (mem s) =
              Starting :: mid ++ [Final_counter (wrap_int (total cfg)); Final_sum 70;
                                  Completed] ∧
            filter (λ l, main_line l = true) mid = [Initial_sum x]).
Proof.
  intros Hcfg.
  assert (∀ sched s0 s, inv cfg s0 → output_frame_inv cfg s0 →
            run cfg sched s0 = Some s → output_frame_inv cfg s) as Hind.
  { clear sched s. intros sched. induction sched as [|t sched IH];
      intros s0 s Hinv Hout Hrun; [by simplify_eq/= |].
    simpl in Hrun. destruct (step cfg t s0) as [s1 |] eqn:Hstep; [| done].
    simpl in Hrun. eauto using inv_step, output_frame_step. }
  intros Hrun.
  pose proof (inv_run _ _ _ _ Hcfg (inv_start _ argc argv Hcfg) Hrun) as Hinv.
  pose proof (Hind sched _ s (inv_start _ argc argv Hcfg) eq_refl Hrun) as Hout.
  unfold output_frame_inv in Hout. split.
  - destruct (main_at s); first [by left | right; destruct Hout as [mid ->]; eauto].
  - intros [c Hc]. unfold exit_code in Hc.
    destruct (inv_out _ _ Hinv) as (x & Hx & _ & Hmain).
    destruct (main_at s); try done. destruct Hout as [mid Hmid].
    exists mid, x. split_and!; [lia | lia | done |].
    rewrite Hmid in Hmain. simpl in Hmain.
    rewrite filter_cons_True, filter_app in Hmain by done.
    unfold main_lines in Hmain. injection Hmain as Hmain.
    rewrite !filter_cons_True, filter_nil in Hmain by done.
    by apply (app_inv_tail _ _ [Initial_sum x]) in Hmain.
Qed.

Lemma output_first_and_last_witness :
  stdout (mem torn_sum_end) = [] ∨ ∃ rest, stdout (mem torn_sum_end) = Starting :: rest.
Proof.
  refine (proj1 (output_first_and_last sample 0 [] torn_sum torn_sum_end _ _)).
  - apply sample_ok.
  - vm_compute; reflexivity.
Defined.

(** ** The array at every moment *)

(** X17: At every moment of every run the array is the initial array with its
    first [p] elements doubled, for some [p] from 0 to 5: the doubling
    goes through the indices in order and nothing else writes the array. *)
Theorem array_prefix_doubled (cfg : config) (argc : Z) (argv : list string)
    (sched : list task) (s : state) :
  config_ok cfg → run cfg sched (start argc argv) = Some s →
  ∃ p : nat, (p <= 5)%nat ∧
    array (mem s) = ((λ x, x * 2) <$> take p initial_array) ++ drop p initial_array.
Proof.
  intros Hcfg Hrun.
  pose proof (inv_run _ _ _ _ Hcfg (inv_start _ argc argv Hcfg) Hrun) as Hinv.
  destruct (array_shape _ _ Hcfg (inv_pool _ _ Hinv) (inv_array _ _ Hinv))
    as (p & Hp & ->).
  exists (Z.to_nat p). split; [lia |].
  assert (p = 0 ∨ p = 1 ∨ p = 2 ∨ p = 3 ∨ p = 4 ∨ p = 5) as Hpc by lia.
  destruct Hpc as [-> | [-> | [-> | [-> | [-> | ->]]]]]; by vm_compute.
Qed.

Lemma array_prefix_doubled_witness :
  ∃ p : nat, (p <= 5)%nat ∧
    array (mem sum_during_mutation_end) =
      ((λ x, x * 2) <$> take p initial_array) ++ drop p initial_array.
Proof.
  apply (array_prefix_doubled sample 0 [] sum_during_mutation sum_during_mutation_end).
  - apply sample_ok.
  - vm_compute; reflexivity.
Defined.
